(** * Mini FPS game block: the game-state and event-update core of [src/block.tsx]

    The development follows the source file top to bottom:

    - [Number]: the arithmetic of a JavaScript [number], as an interface with
      two instances, IEEE binary64 (what the program runs on) and the real
      numbers (exact arithmetic);
    - [Vector3], [Quaternion]: the methods of three.js the source calls;
    - [GameState], [Enemy], [Bullet], [Camera], [World]: the React state, the
      refs and the scene objects the handlers read and write, together with
      the state as of the last render, which is what the closures of the
      handlers see;
    - the handlers [shoot], [removeBullet], [handleEnemyHit], [reload],
      [handleClick], the cool-down timer, the per-frame callback of a bullet
      and the completion effect of [Block];
    - [render]: a render and its commit;
    - [play]: a session, any sequence of handlers and renders; [step] and
      [run]: the sessions in which every event is rendered before the next
      one is handled.

    After the state machine come [Block]'s [gameStarted] and the listeners
    that route a click (under pointer lock) to [shoot] and the R key to
    [reload], and the spin and bob of an [Enemy].  The JSX (start screen,
    HUD, crosshair, lights, ground, sky) is presentation and is not
    modelled.

    Counters ([score], [ammo], bullet ids) are integer-valued and far below
    2^53, where binary64 is exact: they are modelled in [Z].  Coordinates and
    frame deltas are genuine floating-point data: they are kept generic in the
    [Number] interface. *)

From Stdlib Require Import ZArith List Bool String Lia.
From Stdlib Require Import Uint63 Floats.
From Stdlib Require Import Reals Lra.
From Stdlib Require Import Sorted.
Import ListNotations.

Set Implicit Arguments.
Set Warnings "-inexact-float".
Local Open Scope Z_scope.

(* ================================================================== *)
(** ** JavaScript numbers *)
(* ================================================================== *)

(** The operations on [number] that the source and the three.js methods it
    calls rely on. *)
Class Number (T : Type) : Type := {
  num   : Z -> T;            (* an integer literal: 0, 1, -1, 2, 50, 100 *)
  nadd  : T -> T -> T;       (* a + b *)
  nsub  : T -> T -> T;       (* a - b *)
  nmul  : T -> T -> T;       (* a * b *)
  ndiv  : T -> T -> T;       (* a / b *)
  nsqrt : T -> T;            (* Math.sqrt(a) *)
  ngtb  : T -> T -> bool;    (* a > b *)
  falsy : T -> bool          (* the left operand of [a || b] is falsy: 0, -0, NaN *)
}.

(** *** IEEE binary64: the numbers the program runs on *)

Definition float_of_Z (z : Z) : float :=
  match z with
  | Z0 => PrimFloat.zero
  | Zpos _ => PrimFloat.of_uint63 (Uint63.of_Z z)
  | Zneg p => PrimFloat.opp (PrimFloat.of_uint63 (Uint63.of_Z (Zpos p)))
  end.

#[export] Instance float_Number : Number float := {
  num := float_of_Z;
  nadd := PrimFloat.add;
  nsub := PrimFloat.sub;
  nmul := PrimFloat.mul;
  ndiv := PrimFloat.div;
  nsqrt := PrimFloat.sqrt;
  ngtb := fun a b => PrimFloat.ltb b a;
  falsy := fun a => PrimFloat.is_zero a || PrimFloat.is_nan a
}.

(** *** Real numbers: exact arithmetic *)

Definition R_gtb (a b : R) : bool := if Rlt_dec b a then true else false.
Definition R_falsy (a : R) : bool := if Req_dec_T a 0%R then true else false.

#[export] Instance R_Number : Number R := {
  num := IZR;
  nadd := Rplus;
  nsub := Rminus;
  nmul := Rmult;
  ndiv := Rdiv;
  nsqrt := R_sqrt.sqrt;
  ngtb := R_gtb;
  falsy := R_falsy
}.

(* ================================================================== *)
(** ** three.js: [Vector3] and [Quaternion] *)
(* ================================================================== *)

Section Three.
Context {T : Type} {N : Number T}.

Record Vector3 : Type := { x : T; y : T; z : T }.

Record Quaternion : Type := { qx : T; qy : T; qz : T; qw : T }.

(** [v.clone()]: a new vector with the same components.  Values are
    immutable here, so the copy is the vector itself. *)
Definition clone (v : Vector3) : Vector3 :=
  {| x := x v; y := y v; z := z v |}.

(** [a.add(b)] *)
Definition add (a b : Vector3) : Vector3 :=
  {| x := nadd (x a) (x b); y := nadd (y a) (y b); z := nadd (z a) (z b) |}.

(** [v.multiplyScalar(s)] *)
Definition multiplyScalar (v : Vector3) (s : T) : Vector3 :=
  {| x := nmul (x v) s; y := nmul (y v) s; z := nmul (z v) s |}.

(** [v.divideScalar(s)]: three.js multiplies by the reciprocal. *)
Definition divideScalar (v : Vector3) (s : T) : Vector3 :=
  multiplyScalar v (ndiv (num 1) s).

(** [v.lengthSq()] and [v.length()] *)
Definition lengthSq (v : Vector3) : T :=
  nadd (nadd (nmul (x v) (x v)) (nmul (y v) (y v))) (nmul (z v) (z v)).

Definition length (v : Vector3) : T := nsqrt (lengthSq v).

(** [v.normalize()] is [v.divideScalar(v.length() || 1)]. *)
Definition normalize (v : Vector3) : Vector3 :=
  let l := length v in
  divideScalar v (if falsy l then num 1 else l).

(** [a.distanceToSquared(b)] and [a.distanceTo(b)] *)
Definition distanceToSquared (a b : Vector3) : T :=
  let dx := nsub (x a) (x b) in
  let dy := nsub (y a) (y b) in
  let dz := nsub (z a) (z b) in
  nadd (nadd (nmul dx dx) (nmul dy dy)) (nmul dz dz).

Definition distanceTo (a b : Vector3) : T := nsqrt (distanceToSquared a b).

(** [v.applyQuaternion(q)]: [v + q.w * t + cross(q.xyz, t)] with
    [t = 2 * cross(q.xyz, v)]. *)
Definition applyQuaternion (v : Vector3) (q : Quaternion) : Vector3 :=
  let vx := x v in let vy := y v in let vz := z v in
  let tx := nmul (num 2) (nsub (nmul (qy q) vz) (nmul (qz q) vy)) in
  let ty := nmul (num 2) (nsub (nmul (qz q) vx) (nmul (qx q) vz)) in
  let tz := nmul (num 2) (nsub (nmul (qx q) vy) (nmul (qy q) vx)) in
  {| x := nsub (nadd (nadd vx (nmul (qw q) tx)) (nmul (qy q) tz)) (nmul (qz q) ty);
     y := nsub (nadd (nadd vy (nmul (qw q) ty)) (nmul (qz q) tx)) (nmul (qx q) tz);
     z := nsub (nadd (nadd vz (nmul (qw q) tz)) (nmul (qx q) ty)) (nmul (qy q) tx) |}.

End Three.

Arguments Vector3 T : clear implicits.
Arguments Quaternion T : clear implicits.

(* ================================================================== *)
(** ** The completion message *)
(* ================================================================== *)

(** The object handed to [postMessage] in [Block]'s effect. *)
Module Message.
Record t : Type := {
  type : string;
  blockId : string;
  completed : bool;
  score : Z;
  maxScore : Z
}.
End Message.

(** The two receivers: [window] and [window.parent]. *)
Inductive Recipient : Type := Window | Parent.

(* ================================================================== *)
(** ** State *)
(* ================================================================== *)

Section Game.
Context {T : Type} {N : Number T}.

(** An element of [GameState.bullets]. *)
Record Bullet : Type := {
  id : Z;
  position : Vector3 T;
  direction : Vector3 T
}.

(** [interface GameState] *)
Record GameState : Type := {
  score : Z;
  ammo : Z;
  bullets : list Bullet
}.

(** One [Enemy] component: its props [id] and [position], and its state
    [hit] ([useState(false)]). *)
Record Enemy : Type := {
  enemy_id : Z;
  enemy_position : Z * Z * Z;
  hit : bool
}.

(** What [shoot] reads of the three.js camera. *)
Record Camera : Type := {
  camera_position : Vector3 T;
  camera_quaternion : Quaternion T
}.

(** Everything the handlers read or write:
    - [gameState]: [Block]'s [useState<GameState>], with every update made
      so far applied: what an updater [prev => ...] receives as [prev];
    - [renderedState]: the [gameState] of the last render: what the
      closures of the handlers (the [gameState] prop of [GameScene]) and the
      JSX see until the next render;
    - [bulletIdCounter]: [GameScene]'s [useRef(0)];
    - [enemies]: the [Enemy] components, with every [setHit] made so far
      applied;
    - [renderedEnemies]: the [Enemy] components as of the last render: the
      [hit] their [handleClick] closures see;
    - [timers]: the pending [setTimeout] callbacks, by the id of the enemy
      whose [hit] they reset, oldest first;
    - [meshes]: for each mounted [Bullet] component, its React key (the
      bullet id) and the position of its mesh, [meshRef.current.position];
    - [effectDeps]: the dependency [gameState.score] the completion effect
      last ran with ([None] before the first render);
    - [posted]: the [postMessage] calls made so far, oldest first. *)
Record World : Type := {
  gameState : GameState;
  renderedState : GameState;
  bulletIdCounter : Z;
  enemies : list Enemy;
  renderedEnemies : list Enemy;
  timers : list Z;
  meshes : list (Z * Vector3 T);
  effectDeps : option Z;
  posted : list (Recipient * Message.t)
}.

(** *** Field updates *)

Definition setGameState (f : GameState -> GameState) (w : World) : World :=
  {| gameState := f (gameState w);
     renderedState := renderedState w;
     bulletIdCounter := bulletIdCounter w;
     enemies := enemies w;
     renderedEnemies := renderedEnemies w;
     timers := timers w;
     meshes := meshes w;
     effectDeps := effectDeps w;
     posted := posted w |}.

Definition set_bulletIdCounter (c : Z) (w : World) : World :=
  {| gameState := gameState w;
     renderedState := renderedState w;
     bulletIdCounter := c;
     enemies := enemies w;
     renderedEnemies := renderedEnemies w;
     timers := timers w;
     meshes := meshes w;
     effectDeps := effectDeps w;
     posted := posted w |}.

Definition set_enemies (es : list Enemy) (w : World) : World :=
  {| gameState := gameState w;
     renderedState := renderedState w;
     bulletIdCounter := bulletIdCounter w;
     enemies := es;
     renderedEnemies := renderedEnemies w;
     timers := timers w;
     meshes := meshes w;
     effectDeps := effectDeps w;
     posted := posted w |}.

Definition set_timers (ts : list Z) (w : World) : World :=
  {| gameState := gameState w;
     renderedState := renderedState w;
     bulletIdCounter := bulletIdCounter w;
     enemies := enemies w;
     renderedEnemies := renderedEnemies w;
     timers := ts;
     meshes := meshes w;
     effectDeps := effectDeps w;
     posted := posted w |}.

Definition set_meshes (ms : list (Z * Vector3 T)) (w : World) : World :=
  {| gameState := gameState w;
     renderedState := renderedState w;
     bulletIdCounter := bulletIdCounter w;
     enemies := enemies w;
     renderedEnemies := renderedEnemies w;
     timers := timers w;
     meshes := ms;
     effectDeps := effectDeps w;
     posted := posted w |}.

Definition set_effect (d : Z) (ps : list (Recipient * Message.t)) (w : World) : World :=
  {| gameState := gameState w;
     renderedState := renderedState w;
     bulletIdCounter := bulletIdCounter w;
     enemies := enemies w;
     renderedEnemies := renderedEnemies w;
     timers := timers w;
     meshes := meshes w;
     effectDeps := Some d;
     posted := ps |}.

(** The snapshot a render takes of the state. *)
Definition set_rendered (g : GameState) (es : list Enemy) (w : World) : World :=
  {| gameState := gameState w;
     renderedState := g;
     bulletIdCounter := bulletIdCounter w;
     enemies := enemies w;
     renderedEnemies := es;
     timers := timers w;
     meshes := meshes w;
     effectDeps := effectDeps w;
     posted := posted w |}.

(* ================================================================ *)
(** ** [GameScene]: the handlers *)
(* ================================================================ *)

(** A handler is a closure of the last render: where the source reads
    [gameState] (or [hit]) directly, the handler reads [renderedState] (or
    [renderedEnemies]); where it passes an updater [prev => ...] to
    [setGameState], the updater is applied to the state as updated so far.
    The updaters take effect in the order they were queued, which is the
    order the handlers ran in. *)

(** [shoot] *)
Definition shoot (camera : Camera) (w : World) : World :=
  if ammo (renderedState w) <=? 0 then w
  else
    let w1 :=
      setGameState (fun prev =>
        {| score := score prev; ammo := ammo prev - 1; bullets := bullets prev |}) w in
    let direction0 :=
      applyQuaternion {| x := num 0; y := num 0; z := num (-1) |}
                      (camera_quaternion camera) in
    let newBullet :=
      {| id := bulletIdCounter w1;
         position := clone (camera_position camera);
         direction := normalize direction0 |} in
    let w2 := set_bulletIdCounter (bulletIdCounter w1 + 1) w1 in
    setGameState (fun prev =>
      {| score := score prev; ammo := ammo prev;
         bullets := bullets prev ++ [newBullet] |}) w2.

(** The bullets [removeBullet] keeps: [bullet => bullet.id !== bulletId]. *)
Definition keeps (bulletId : Z) (bullet : Bullet) : bool :=
  negb (id bullet =? bulletId).

(** [removeBullet] *)
Definition removeBullet (bulletId : Z) (w : World) : World :=
  setGameState (fun prev =>
    {| score := score prev; ammo := ammo prev;
       bullets := filter (keeps bulletId) (bullets prev) |}) w.

(** [handleEnemyHit] *)
Definition handleEnemyHit (enemyId : Z) (w : World) : World :=
  setGameState (fun prev =>
    {| score := score prev + 10; ammo := ammo prev; bullets := bullets prev |}) w.

(** [reload] *)
Definition reload (w : World) : World :=
  setGameState (fun prev =>
    {| score := score prev; ammo := 30; bullets := bullets prev |}) w.

(* ================================================================ *)
(** ** [Enemy]: the click handler and its timer *)
(* ================================================================ *)

(** The component [e] after [setHit(b)]. *)
Definition withHit (b : bool) (e : Enemy) : Enemy :=
  {| enemy_id := enemy_id e; enemy_position := enemy_position e; hit := b |}.

(** [setHit(b)] of the [Enemy] component with the given id. *)
Definition setHit (enemyId : Z) (b : bool) (w : World) : World :=
  set_enemies
    (map (fun e =>
            if enemy_id e =? enemyId
            then withHit b e
            else e)
         (enemies w)) w.

(** [setTimeout(() => setHit(false), 1000)] *)
Definition setTimeout (enemyId : Z) (w : World) : World :=
  set_timers (timers w ++ [enemyId]) w.

(** [handleClick] of the component [e]; the flag tells whether [onHit] was
    called. *)
Definition handleClick (e : Enemy) (w : World) : World * bool :=
  if negb (hit e) then
    let w1 := setHit (enemy_id e) true w in
    let w2 := handleEnemyHit (enemy_id e) w1 in
    let w3 := setTimeout (enemy_id e) w2 in
    (w3, true)
  else (w, false).

Definition findEnemy (enemyId : Z) (w : World) : option Enemy :=
  find (fun e => enemy_id e =? enemyId) (enemies w).

(** The [Enemy] component with the given id as of the last render. *)
Definition findRenderedEnemy (enemyId : Z) (w : World) : option Enemy :=
  find (fun e => enemy_id e =? enemyId) (renderedEnemies w).

(** The click on the mesh of the enemy [targetId] ([registerHit] in the
    specification): the event reaches the [handleClick] that the last render
    of that component created. *)
Definition registerHit (targetId : Z) (w : World) : World * bool :=
  match findRenderedEnemy targetId w with
  | Some e => handleClick e w
  | None => (w, false)
  end.

Fixpoint removeFirst (k : Z) (l : list Z) : list Z :=
  match l with
  | [] => []
  | k' :: l' => if k' =? k then l' else k' :: removeFirst k l'
  end.

(** The timer callback [() => setHit(false)] of the enemy [targetId]
    ([targetCooldownExpired] in the specification). *)
Definition targetCooldownExpired (targetId : Z) (w : World) : World :=
  setHit targetId false (set_timers (removeFirst targetId (timers w)) w).

(* ================================================================ *)
(** ** [Bullet]: the per-frame callback *)
(* ================================================================ *)

Definition speed : T := num 50.
Definition maxDistance : T := num 100.

(** The body of [useFrame] in [Bullet], for the props [position] and
    [direction] and the current mesh position: the new mesh position, and
    whether [onRemove] was called. *)
Definition bulletFrame (position0 direction0 mesh : Vector3 T) (delta : T)
  : Vector3 T * bool :=
  let startPosition := clone position0 in
  let mesh' := add mesh (multiplyScalar (clone direction0) (nmul speed delta)) in
  (mesh', ngtb (distanceTo mesh' startPosition) maxDistance).

(** A bullet's mesh over successive frames: the final mesh position and the
    [onRemove] flag of every frame, first frame first. *)
Fixpoint bulletFrames (position0 direction0 mesh : Vector3 T) (deltas : list T)
  : Vector3 T * list bool :=
  match deltas with
  | [] => (mesh, [])
  | delta :: rest =>
      let (mesh', expired) := bulletFrame position0 direction0 mesh delta in
      let (mesh'', flags) := bulletFrames position0 direction0 mesh' rest in
      (mesh'', expired :: flags)
  end.

Fixpoint lookupMesh (key : Z) (ms : list (Z * Vector3 T)) : option (Vector3 T) :=
  match ms with
  | [] => None
  | (k, m) :: ms' => if k =? key then Some m else lookupMesh key ms'
  end.

Definition setMesh (key : Z) (m : Vector3 T) (w : World) : World :=
  set_meshes
    (map (fun km => if fst km =? key then (fst km, m) else km) (meshes w)) w.

Definition findBullet (bulletId : Z) (w : World) : option Bullet :=
  find (fun b => id b =? bulletId) (bullets (gameState w)).

(** The bullet with the given id in the state of the last render: the props
    of the mounted [Bullet] component with that key. *)
Definition findRenderedBullet (bulletId : Z) (w : World) : option Bullet :=
  find (fun b => id b =? bulletId) (bullets (renderedState w)).

(** One frame of the [Bullet] component with key [projectileId] ([tick] in
    the specification); [onRemove] is [removeBullet(bullet.id)]. *)
Definition tick (projectileId : Z) (delta : T) (w : World) : World * bool :=
  match findRenderedBullet projectileId w, lookupMesh projectileId (meshes w) with
  | Some b, Some mesh =>
      let (mesh', expired) := bulletFrame (position b) (direction b) mesh delta in
      let w1 := setMesh projectileId mesh' w in
      (if expired then removeBullet (id b) w1 else w1, expired)
  | _, _ => (w, false)
  end.

(* ================================================================ *)
(** ** [Block]: the completion effect and rendering *)
(* ================================================================ *)

Definition completionMessage (s : Z) : Message.t :=
  {| Message.type := "BLOCK_COMPLETION";
     Message.blockId := "mini-fps-game";
     Message.completed := true;
     Message.score := s;
     Message.maxScore := 50 |}.

(** The body of the effect, for the rendered [gameState.score]. *)
Definition completionEffect (s : Z) : list (Recipient * Message.t) :=
  if 50 <=? s
  then [(Window, completionMessage s); (Parent, completionMessage s)]
  else [].

(** [useEffect(..., [gameState.score])]: the body runs after the first
    render and after every render in which the dependency differs from the
    one of the previous render. *)
Definition useEffect (w : World) : World :=
  let s := score (gameState w) in
  match effectDeps w with
  | Some d =>
      if d =? s then w else set_effect s (posted w ++ completionEffect s) w
  | None => set_effect s (posted w ++ completionEffect s) w
  end.

(** Keyed reconciliation of the [Bullet] components: a bullet that already
    has a component keeps its mesh, a new bullet gets a mesh at its
    [position] prop, a component whose bullet is gone is unmounted. *)
Definition reconcile (bs : list Bullet) (ms : list (Z * Vector3 T))
  : list (Z * Vector3 T) :=
  map (fun b =>
         (id b, match lookupMesh (id b) ms with
                | Some m => m
                | None => clone (position b)
                end)) bs.

(** A render and its commit: the closures and the JSX are rebuilt from the
    state as updated so far, the [Bullet] components are reconciled, and the
    effect runs. *)
Definition render (w : World) : World :=
  useEffect
    (set_rendered (gameState w) (enemies w)
       (set_meshes (reconcile (bullets (gameState w)) (meshes w)) w)).

(* ================================================================ *)
(** ** Sessions *)
(* ================================================================ *)

(** The [enemies] array of [GameScene], each not hit. *)
Definition initialEnemies : list Enemy :=
  [ {| enemy_id := 1; enemy_position := (5, 1, -10); hit := false |};
    {| enemy_id := 2; enemy_position := (-5, 1, -15); hit := false |};
    {| enemy_id := 3; enemy_position := (0, 2, -20); hit := false |};
    {| enemy_id := 4; enemy_position := (8, 1, -12); hit := false |};
    {| enemy_id := 5; enemy_position := (-8, 1, -18); hit := false |} ].

Definition initialGameState : GameState :=
  {| score := 0; ammo := 30; bullets := [] |}.

(** The world before the first render, and after it. *)
Definition unmounted : World :=
  {| gameState := initialGameState;
     renderedState := initialGameState;
     bulletIdCounter := 0;
     enemies := initialEnemies;
     renderedEnemies := initialEnemies;
     timers := [];
     meshes := [];
     effectDeps := None;
     posted := [] |}.

Definition initial : World := render unmounted.

(** The operations of the specification's state machine. *)
Inductive Op : Type :=
| Shoot (camera : Camera)
| Reload
| Tick (projectileId : Z) (delta : T)
| RemoveProjectile (projectileId : Z)
| RegisterHit (targetId : Z)
| TargetCooldownExpired (targetId : Z).

(** The handler of an operation. *)
Definition handle (op : Op) (w : World) : World :=
  match op with
  | Shoot camera => shoot camera w
  | Reload => reload w
  | Tick projectileId delta => fst (tick projectileId delta w)
  | RemoveProjectile projectileId => removeBullet projectileId w
  | RegisterHit targetId => fst (registerHit targetId w)
  | TargetCooldownExpired targetId => targetCooldownExpired targetId w
  end.

(** An event handled alone: its handler, then a render before anything else
    is handled. *)
Definition step (op : Op) (w : World) : World := render (handle op w).

(** A session in which every event is rendered before the next one is
    handled. *)
Fixpoint run (ops : list Op) (w : World) : World :=
  match ops with
  | [] => w
  | op :: rest => run rest (step op w)
  end.

(** In general React renders when it chooses to: several handlers may run
    against the closures of one render, and their updates are committed
    together by the next one.  A session is any sequence of handlers and
    renders. *)
Inductive Action : Type :=
| Handle (op : Op)
| Commit.

Definition act (a : Action) (w : World) : World :=
  match a with
  | Handle op => handle op w
  | Commit => render w
  end.

Fixpoint play (acts : list Action) (w : World) : World :=
  match acts with
  | [] => w
  | a :: rest => play rest (act a w)
  end.

(** The session of [run]: a render after every handler. *)
Definition eachCommitted (ops : list Op) : list Action :=
  flat_map (fun op => [Handle op; Commit]) ops.

(** The closures are up to date: nothing was updated since the last
    render. *)
Definition committed (w : World) : Prop :=
  renderedState w = gameState w /\ renderedEnemies w = enemies w.

(** Whether the operation is a hit that the target accepts in [w]. *)
Definition accepted (op : Op) (w : World) : bool :=
  match op with
  | RegisterHit targetId => snd (registerHit targetId w)
  | _ => false
  end.

(** The number of accepted hits along a run. *)
Fixpoint acceptedHits (ops : list Op) (w : World) : Z :=
  match ops with
  | [] => 0
  | op :: rest => (if accepted op w then 1 else 0) + acceptedHits rest (step op w)
  end.

(** Every bullet of the state has an id below the counter. *)
Definition idsBelowCounter (w : World) : Prop :=
  Forall (fun b => id b < bulletIdCounter w) (bullets (gameState w)).

(** The ids that bullets of [after] carry and no bullet of [before] does:
    the ids an event handed out. *)
Definition newIds (before after : list Bullet) : list Z :=
  filter (fun i => negb (existsb (Z.eqb i) (map id before))) (map id after).

(** The bullet ids handed out along a run, oldest first. *)
Fixpoint idsAssigned (ops : list Op) (w : World) : list Z :=
  match ops with
  | [] => []
  | op :: rest =>
      newIds (bullets (gameState w)) (bullets (gameState (step op w)))
        ++ idsAssigned rest (step op w)
  end.

(** The score after each operation of a run, in order. *)
Fixpoint scores (ops : list Op) (w : World) : list Z :=
  match ops with
  | [] => []
  | op :: rest => score (gameState (step op w)) :: scores rest (step op w)
  end.

(** The number of messages posted to a receiver so far. *)
Definition sameRecipient (a b : Recipient) : bool :=
  match a, b with
  | Window, Window | Parent, Parent => true
  | _, _ => false
  end.

Definition notifications (r : Recipient) (w : World) : nat :=
  List.length (filter (fun p => sameRecipient (fst p) r) (posted w)).

(** [delta_1 + ... + delta_n] as the program's numbers add it up, from 0. *)
Definition total (deltas : list T) : T := fold_left nadd deltas (num 0).

End Game.

Arguments Bullet T : clear implicits.
Arguments GameState T : clear implicits.
Arguments Camera T : clear implicits.
Arguments World T : clear implicits.
Arguments Op T : clear implicits.
Arguments Action T : clear implicits.

(* ================================================================== *)
(** ** Sums of frame deltas *)
(* ================================================================== *)

(** [delta_1 + ... + delta_n], and the running totals after each frame
    starting from [acc]. *)
Fixpoint sumR (deltas : list R) : R :=
  match deltas with
  | [] => 0%R
  | d :: rest => (d + sumR rest)%R
  end.

Fixpoint prefixSums (acc : R) (deltas : list R) : list R :=
  match deltas with
  | [] => []
  | d :: rest => (acc + d)%R :: prefixSums (acc + d)%R rest
  end.

(* ================================================================== *)
(** ** Concrete scenes *)
(* ================================================================== *)

(** In binary64: the camera of [<Canvas camera={{ position: [0, 1, 0] }}>],
    not rotated, and a bullet fired from the origin straight ahead. *)
Definition eyeF : Vector3 float := {| x := 0; y := 1; z := 0 |}%float.
Definition identityF : Quaternion float := {| qx := 0; qy := 0; qz := 0; qw := 1 |}%float.
Definition cameraF : Camera float :=
  {| camera_position := eyeF; camera_quaternion := identityF |}.
Definition zeroF : Vector3 float := {| x := 0; y := 0; z := 0 |}%float.
Definition forwardF : Vector3 float := {| x := 0; y := 0; z := -1 |}%float.

(** Five hits, one on each target, then the timer of target 1 and a sixth
    hit on it. *)
Definition sixHits : list (Op float) :=
  [RegisterHit 1; RegisterHit 2; RegisterHit 3; RegisterHit 4; RegisterHit 5;
   TargetCooldownExpired 1; RegisterHit 1].

(** Twenty-nine shots, each rendered before the next, then one more click
    that has not been rendered yet: one round was left at the last render,
    none is left in the state. *)
Definition lastRoundFired : list (Action float) :=
  eachCommitted (repeat (Shoot cameraF) 29) ++ [Handle (Shoot cameraF)].

(** The same, with a second click before the render. *)
Definition twoClicksOnOneRound : list (Action float) :=
  lastRoundFired ++ [Handle (Shoot cameraF)].

(** Thirty shots, each rendered, then a reload that has not been rendered
    yet. *)
Definition reloadedNotRendered : list (Action float) :=
  eachCommitted (repeat (Shoot cameraF) 30) ++ [Handle Reload].

(** Two picks of target 1 with no render in between. *)
Definition twoPicks : list (Action float) :=
  [Handle (RegisterHit 1); Handle (RegisterHit 1)].

(** Four hits rendered one by one, then two hits rendered together. *)
Definition twoHitsInOneRender : list (Action float) :=
  eachCommitted [RegisterHit 1; RegisterHit 2; RegisterHit 3; RegisterHit 4]
    ++ [Handle (RegisterHit 5); Handle (RegisterHit 5); Commit].

(** The same bullet geometry over the reals. *)
Definition eyeR : Vector3 R := {| x := 0; y := 1; z := 0 |}%R.
Definition forwardR : Vector3 R := {| x := 0; y := 0; z := -1 |}%R.

(* ================================================================== *)
(** ** Bookkeeping for sessions *)
(* ================================================================== *)

Section Bookkeeping.
Context {T : Type} {N : Number T}.

(** The ids of the bullets of the state, in list order. *)
Definition bulletIds (w : World T) : list Z := map id (bullets (gameState w)).

(** The bullet ids are non-negative, below the counter and strictly
    increasing along the list. *)
Definition idsOrdered (w : World T) : Prop :=
  0 <= bulletIdCounter w /\
  Forall (fun i => 0 <= i < bulletIdCounter w) (bulletIds w) /\
  StronglySorted Z.lt (bulletIds w).

(** The number of targets showing HIT!. *)
Definition hitCount (w : World T) : nat := List.length (filter hit (enemies w)).

(** A target is in cool-down exactly when a timer is pending for it, and no
    target has two pending timers. *)
Definition timersMatchHits (w : World T) : Prop :=
  NoDup (timers w) /\
  forall e, In e (enemies w) -> (hit e = true <-> In (enemy_id e) (timers w)).

Definition isCooldownExpiry (op : Op T) : bool :=
  match op with
  | TargetCooldownExpired _ => true
  | _ => false
  end.

(** The completion messages for the scores [ss], each to [window] and then
    to [window.parent]. *)
Definition noticesOf (ss : list Z) : list (Recipient * Message.t) :=
  flat_map (fun s => [(Window, completionMessage s); (Parent, completionMessage s)]) ss.

(** The messages posted by the first [n] emissions of a session: for the
    scores 50, 60, ..., each to [window] and then to [window.parent]. *)
Definition emitted (n : nat) : list (Recipient * Message.t) :=
  flat_map (fun k =>
              [(Window, completionMessage (10 * (Z.of_nat k + 5)));
               (Parent, completionMessage (10 * (Z.of_nat k + 5)))])
           (seq 0 n).

(** One mesh per bullet, keyed by the bullet's id, in the order of the
    bullets. *)
Definition meshesSynced (w : World T) : Prop := map fst (meshes w) = bulletIds w.

(** What holds of a world right after a render. *)
Definition rendered (w : World T) : Prop :=
  idsOrdered w /\ meshesSynced w /\ effectDeps w = Some (score (gameState w)) /\
  committed w.

(** The mesh list with the mesh of key [i] moved to [m], and with the mesh
    of key [i] unmounted. *)
Definition updateMesh (i : Z) (m : Vector3 T) (ms : list (Z * Vector3 T))
  : list (Z * Vector3 T) :=
  map (fun km => if fst km =? i then (fst km, m) else km) ms.

Definition dropMesh (i : Z) (ms : list (Z * Vector3 T)) : list (Z * Vector3 T) :=
  filter (fun km => negb (fst km =? i)) ms.

(** The bullet [shoot] creates when the id counter is [c]. *)
Definition firedBullet (camera : Camera T) (c : Z) : Bullet T :=
  {| id := c;
     position := clone (camera_position camera);
     direction :=
       normalize (applyQuaternion {| x := num 0; y := num 0; z := num (-1) |}
                                  (camera_quaternion camera)) |}.

(** The state after one frame of the bullet [i] and the render that
    follows, in a rendered world. *)
Definition tickOutcome (i : Z) (delta : T) (w : World T) : World T :=
  match findBullet i w, lookupMesh i (meshes w) with
  | Some b, Some m =>
      if snd (bulletFrame (position b) (direction b) m delta)
      then set_rendered (gameState (removeBullet i w)) (enemies w)
             (set_meshes (dropMesh i (meshes w)) (removeBullet i w))
      else set_meshes
             (updateMesh i (fst (bulletFrame (position b) (direction b) m delta))
                         (meshes w)) w
  | _, _ => w
  end.


End Bookkeeping.

(* ================================================================== *)
(** ** Flight time, in exact arithmetic *)
(* ================================================================== *)




(** A camera rotation is a unit quaternion. *)
Definition unitQuaternion (q : Quaternion R) : Prop :=
  (qx q * qx q + qy q * qy q + qz q * qz q + qw q * qw q = 1)%R.

Definition unitCamera (op : Op R) : Prop :=
  match op with
  | Shoot camera => unitQuaternion (camera_quaternion camera)
  | _ => True
  end.


(** The camera of the canvas, not rotated, over the reals. *)
Definition cameraR : Camera R :=
  {| camera_position := eyeR;
     camera_quaternion := {| qx := 0; qy := 0; qz := 0; qw := 1 |}%R |}.

(* ================================================================== *)
(** ** [Block] and the listeners of [GameScene] *)
(* ================================================================== *)

Section Inputs.
Context {T : Type} {N : Number T}.

(** The two pieces of state of [Block], [gameStarted] and the game itself,
    and what the last render returned: the start screen, or the canvas with
    [GameScene], its listeners, the enemies and the bullets ([mounted]). *)
Record Block : Type := {
  gameStarted : bool;
  mounted : bool;
  world : World T
}.

(** The [click] listener on [window]: [handleClick] in [GameScene]'s effect,
    with [pointerLocked] for [document.pointerLockElement === gl.domElement]. *)
Definition windowClick (pointerLocked : bool) (camera : Camera T) (w : World T)
  : World T :=
  if pointerLocked then shoot camera w else w.

(** The [keydown] listener on [window]: [handleKeyPress]. *)
Definition handleKeyPress (code : string) (w : World T) : World T :=
  if String.eqb code "KeyR" then reload w else w.

(** What reaches the component from outside, and the re-render React runs
    when it gets to it. *)
Inductive Event : Type :=
| StartButton
| WindowClick (pointerLocked : bool) (camera : Camera T)
| KeyDown (code : string)
| EnemyClick (enemyId : Z)
| TimerFired (enemyId : Z)
| BulletFrame (bulletId : Z) (delta : T)
| Rerender.

(** The listener an event reaches inside the canvas. *)
Definition listen (ev : Event) (w : World T) : World T :=
  match ev with
  | StartButton => w
  | WindowClick pointerLocked camera => windowClick pointerLocked camera w
  | KeyDown code => handleKeyPress code w
  | EnemyClick enemyId => fst (registerHit enemyId w)
  | TimerFired enemyId => targetCooldownExpired enemyId w
  | BulletFrame bulletId delta => fst (tick bulletId delta w)
  | Rerender => w
  end.

(** One event: the start button sets [gameStarted]; a re-render returns the
    canvas when [gameStarted] is set and commits the game; any other event
    reaches its listener only when the canvas is mounted. *)
Definition dispatch (ev : Event) (blk : Block) : Block :=
  match ev with
  | StartButton =>
      {| gameStarted := true; mounted := mounted blk; world := world blk |}
  | Rerender =>
      {| gameStarted := gameStarted blk; mounted := gameStarted blk;
         world := render (world blk) |}
  | _ =>
      if mounted blk
      then {| gameStarted := gameStarted blk; mounted := true;
              world := listen ev (world blk) |}
      else blk
  end.

Fixpoint dispatchAll (evs : list Event) (blk : Block) : Block :=
  match evs with
  | [] => blk
  | ev :: rest => dispatchAll rest (dispatch ev blk)
  end.

(** [Block] as it is mounted: the start screen, over the initial game. *)
Definition startScreen : Block :=
  {| gameStarted := false; mounted := false; world := initial |}.

(** The operation of the state machine an event amounts to, if any. *)
Definition opOf (ev : Event) : option (Op T) :=
  match ev with
  | StartButton => None
  | WindowClick pointerLocked camera => if pointerLocked then Some (Shoot camera) else None
  | KeyDown code => if String.eqb code "KeyR" then Some Reload else None
  | EnemyClick enemyId => Some (RegisterHit enemyId)
  | TimerFired enemyId => Some (TargetCooldownExpired enemyId)
  | BulletFrame bulletId delta => Some (Tick bulletId delta)
  | Rerender => None
  end.

Definition isStartButton (ev : Event) : bool :=
  match ev with
  | StartButton => true
  | _ => false
  end.

(** The handler calls and renders a sequence of events amounts to, given
    whether the game has started and whether the canvas is mounted. *)
Fixpoint actionsOf (started isMounted : bool) (evs : list Event) : list (Action T) :=
  match evs with
  | [] => []
  | StartButton :: rest => actionsOf true isMounted rest
  | Rerender :: rest => Commit :: actionsOf started started rest
  | ev :: rest =>
      if isMounted
      then match opOf ev with
           | Some op => Handle op :: actionsOf started isMounted rest
           | None => actionsOf started isMounted rest
           end
      else actionsOf started isMounted rest
  end.

(** The events, each followed by a re-render. *)
Definition eachRendered (evs : list Event) : list Event :=
  flat_map (fun ev => [ev; Rerender]) evs.

(** The operations a sequence of events amounts to when each is rendered
    before the next, given whether the game has started. *)
Fixpoint opsOf (started : bool) (evs : list Event) : list (Op T) :=
  match evs with
  | [] => []
  | ev :: rest =>
      if isStartButton ev then opsOf true rest
      else if started
           then match opOf ev with
                | Some op => op :: opsOf started rest
                | None => opsOf started rest
                end
           else opsOf started rest
  end.

End Inputs.

Arguments Block T : clear implicits.
Arguments Event T : clear implicits.

(* ================================================================== *)
(** ** [Enemy]: the animation *)
(* ================================================================== *)

Section Animation.
Context {T : Type} {N : Number T}.

(** What the animation writes: [rotation.y] and [position.y] of the mesh. *)
Record EnemyMesh : Type := {
  rotation_y : T;
  position_y : T
}.

(** The body of [useFrame] in [Enemy], for the component [e] (its [hit] flag
    and the height [position[1]] of its prop), [state.clock.elapsedTime] and
    the mesh, [Math.sin] being [sin].  The literals 0.01 and 0.2 are written
    as the quotients 1 / 100 and 2 / 10. *)
Definition enemyFrame (sin : T -> T) (e : Enemy) (elapsedTime : T) (mesh : EnemyMesh)
  : EnemyMesh :=
  if negb (hit e) then
    {| rotation_y := nadd (rotation_y mesh) (ndiv (num 1) (num 100));
       position_y :=
         nadd (num (snd (fst (enemy_position e))))
              (nmul (sin (nmul elapsedTime (num 2))) (ndiv (num 2) (num 10))) |}
  else mesh.

Fixpoint enemyFrames (sin : T -> T) (e : Enemy) (times : list T) (mesh : EnemyMesh)
  : EnemyMesh :=
  match times with
  | [] => mesh
  | t :: rest => enemyFrames sin e rest (enemyFrame sin e t mesh)
  end.

End Animation.

Arguments EnemyMesh T : clear implicits.

(* ================================================================== *)
(** ** What each handler leaves alone *)
(* ================================================================== *)

Section Frames.
Context {T : Type} {N : Number T}.
Implicit Types (w : World T) (op : Op T) (ops : list (Op T)) (camera : Camera T).
Implicit Types (acts : list (Action T)) (a : Action T).

Lemma render_gameState w : gameState (render w) = gameState w.
Proof.
  unfold render, useEffect; cbn.
  destruct (effectDeps w) as [d|]; [destruct (d =? _)|]; reflexivity.
Qed.

Lemma render_enemies w : enemies (render w) = enemies w.
Proof.
  unfold render, useEffect; cbn.
  destruct (effectDeps w) as [d|]; [destruct (d =? _)|]; reflexivity.
Qed.

Lemma render_bulletIdCounter w : bulletIdCounter (render w) = bulletIdCounter w.
Proof.
  unfold render, useEffect; cbn.
  destruct (effectDeps w) as [d|]; [destruct (d =? _)|]; reflexivity.
Qed.

Lemma render_effectDeps w : effectDeps (render w) = Some (score (gameState w)).
Proof.
  unfold render, useEffect; cbn.
  destruct (effectDeps w) as [d|] eqn:E; cbn; [|reflexivity].
  destruct (d =? _) eqn:D; cbn; [|reflexivity].
  apply Z.eqb_eq in D. rewrite E, D. reflexivity.
Qed.

Lemma render_meshes w :
  meshes (render w) = reconcile (bullets (gameState w)) (meshes w).
Proof.
  unfold render, useEffect; cbn.
  destruct (effectDeps w) as [d|]; [destruct (d =? _)|]; reflexivity.
Qed.

(** A frame leaves the state as it is, or removes the bullet. *)
Lemma tick_gameState projectileId delta w :
  gameState (fst (tick projectileId delta w)) = gameState w \/
  gameState (fst (tick projectileId delta w)) = gameState (removeBullet projectileId w).
Proof.
  unfold tick, findRenderedBullet.
  destruct (find _ _) as [b|] eqn:F; [|left; reflexivity].
  destruct (lookupMesh _ _) as [m|]; [|left; reflexivity].
  destruct (bulletFrame _ _ _ _) as [m' e].
  apply find_some in F. destruct F as [_ F]. apply Z.eqb_eq in F.
  destruct e; cbn; [right|left]; rewrite ?F; reflexivity.
Qed.

Lemma tick_keeps projectileId delta w :
  let w' := fst (tick projectileId delta w) in
  score (gameState w') = score (gameState w) /\
  ammo (gameState w') = ammo (gameState w) /\
  bulletIdCounter w' = bulletIdCounter w /\
  enemies w' = enemies w /\
  effectDeps w' = effectDeps w /\
  posted w' = posted w.
Proof.
  unfold tick.
  destruct (findRenderedBullet _ _) as [b|]; [|cbn; tauto].
  destruct (lookupMesh _ _) as [m|]; [|cbn; tauto].
  destruct (bulletFrame _ _ _ _) as [m' e].
  destruct e; cbn; tauto.
Qed.

Lemma tick_keeps_closures projectileId delta w :
  let w' := fst (tick projectileId delta w) in
  renderedState w' = renderedState w /\
  renderedEnemies w' = renderedEnemies w /\
  timers w' = timers w.
Proof.
  unfold tick.
  destruct (findRenderedBullet _ _) as [b|]; [|cbn; tauto].
  destruct (lookupMesh _ _) as [m|]; [|cbn; tauto].
  destruct (bulletFrame _ _ _ _) as [m' e].
  destruct e; cbn; tauto.
Qed.

Lemma registerHit_cases targetId w :
  registerHit targetId w = (w, false) \/
  registerHit targetId w =
    (setTimeout targetId (handleEnemyHit targetId (setHit targetId true w)), true).
Proof.
  unfold registerHit, findRenderedEnemy.
  destruct (find _ _) as [e|] eqn:F; [|left; reflexivity].
  apply find_some in F. destruct F as [_ F]. apply Z.eqb_eq in F.
  unfold handleClick. destruct (hit e); cbn; [left; reflexivity|].
  right. rewrite F. reflexivity.
Qed.

(** The score after a handler: unchanged, or ten more when the handler is
    an accepted hit. *)
Lemma handle_score op w :
  score (gameState (handle op w)) =
  score (gameState w) + (if accepted op w then 10 else 0).
Proof.
  destruct op as [camera| |projectileId delta|projectileId|targetId|targetId]; cbn.
  - unfold shoot. destruct (_ <=? 0); cbn; lia.
  - lia.
  - destruct (tick_keeps projectileId delta w) as [H _]. rewrite H. lia.
  - lia.
  - destruct (registerHit_cases targetId w) as [H|H]; rewrite H; cbn; lia.
  - lia.
Qed.

Lemma handle_ammo op w :
  ammo (gameState (handle op w)) = ammo (gameState w) \/
  (0 < ammo (renderedState w) /\
   ammo (gameState (handle op w)) = ammo (gameState w) - 1) \/
  ammo (gameState (handle op w)) = 30.
Proof.
  destruct op as [camera| |projectileId delta|projectileId|targetId|targetId]; cbn.
  - unfold shoot. destruct (_ <=? 0) eqn:A; cbn; [left; reflexivity|].
    right; left. apply Z.leb_gt in A. split; [assumption|reflexivity].
  - right; right; reflexivity.
  - destruct (tick_keeps projectileId delta w) as (_ & H & _). left; exact H.
  - left; reflexivity.
  - destruct (registerHit_cases targetId w) as [H|H]; rewrite H; left; reflexivity.
  - left; reflexivity.
Qed.

Lemma handle_effectDeps op w : effectDeps (handle op w) = effectDeps w.
Proof.
  destruct op as [camera| |projectileId delta|projectileId|targetId|targetId]; cbn;
    try reflexivity.
  - unfold shoot. destruct (_ <=? 0); reflexivity.
  - apply (tick_keeps projectileId delta w).
  - destruct (registerHit_cases targetId w) as [H|H]; rewrite H; reflexivity.
Qed.

Lemma handle_posted op w : posted (handle op w) = posted w.
Proof.
  destruct op as [camera| |projectileId delta|projectileId|targetId|targetId]; cbn;
    try reflexivity.
  - unfold shoot. destruct (_ <=? 0); reflexivity.
  - apply (tick_keeps projectileId delta w).
  - destruct (registerHit_cases targetId w) as [H|H]; rewrite H; reflexivity.
Qed.

(** No handler touches what the last render captured. *)
Lemma handle_closures op w :
  renderedState (handle op w) = renderedState w /\
  renderedEnemies (handle op w) = renderedEnemies w.
Proof.
  destruct op as [camera| |projectileId delta|projectileId|targetId|targetId]; cbn;
    try (split; reflexivity).
  - unfold shoot. destruct (_ <=? 0); split; reflexivity.
  - destruct (tick_keeps_closures projectileId delta w) as (A & B & _). auto.
  - destruct (registerHit_cases targetId w) as [H|H]; rewrite H; split; reflexivity.
Qed.

Lemma render_committed w : committed (render w).
Proof.
  unfold committed, render, useEffect; cbn.
  destruct (effectDeps w) as [d|]; [destruct (d =? _)|]; split; reflexivity.
Qed.

Lemma step_committed op w : committed (step op w).
Proof. apply render_committed. Qed.

Lemma step_score op w :
  score (gameState (step op w)) =
  score (gameState w) + (if accepted op w then 10 else 0).
Proof. unfold step. rewrite render_gameState. apply handle_score. Qed.

Lemma step_effectDeps op w :
  effectDeps (step op w) = Some (score (gameState (step op w))).
Proof. unfold step. rewrite render_effectDeps, render_gameState. reflexivity. Qed.

Lemma run_app ops1 ops2 w : run (ops1 ++ ops2) w = run ops2 (run ops1 w).
Proof. revert w; induction ops1 as [|op ops1 IH]; intro w; cbn; auto. Qed.

(** Induction on a run from its last operation. *)
Lemma run_snoc ops op w : run (ops ++ [op]) w = step op (run ops w).
Proof. rewrite run_app. reflexivity. Qed.

Lemma play_app acts1 acts2 w : play (acts1 ++ acts2) w = play acts2 (play acts1 w).
Proof. revert w; induction acts1 as [|a acts1 IH]; intro w; cbn; auto. Qed.

Lemma play_snoc acts a w : play (acts ++ [a]) w = act a (play acts w).
Proof. rewrite play_app. reflexivity. Qed.

(** [run] is the session that renders after every handler. *)
Lemma play_eachCommitted ops : forall w, play (eachCommitted ops) w = run ops w.
Proof.
  induction ops as [|op ops IH]; intro w; [reflexivity|].
  cbn. apply IH.
Qed.

Lemma run_committed ops : committed (run ops (@initial T)).
Proof.
  destruct ops as [|op ops] using rev_ind.
  - split; reflexivity.
  - rewrite run_snoc. apply step_committed.
Qed.

Lemma acceptedHits_snoc ops op w :
  acceptedHits (ops ++ [op]) w =
  acceptedHits ops w + (if accepted op (run ops w) then 1 else 0).
Proof.
  revert w; induction ops as [|o ops IH]; intro w; cbn.
  - lia.
  - rewrite IH. lia.
Qed.

End Frames.

(* ================================================================== *)
(** ** Invariants of a session *)
(* ================================================================== *)

Section Session.
Context {T : Type} {N : Number T}.
Implicit Types (w : World T) (op : Op T) (ops : list (Op T)).
Implicit Types (acts : list (Action T)) (a : Action T).

Lemma initial_gameState : gameState (@initial T) = initialGameState.
Proof. reflexivity. Qed.

Lemma score_monotone_step op w :
  score (gameState w) <= score (gameState (step op w)).
Proof. rewrite step_score. destruct (accepted op w); lia. Qed.

Lemma score_monotone_act a w :
  score (gameState w) <= score (gameState (act a w)).
Proof.
  destruct a as [op|]; cbn [act].
  - rewrite handle_score. destruct (accepted op w); lia.
  - rewrite render_gameState. lia.
Qed.

(** What holds in every session, however the renders fall: [ammo] never
    exceeds 30, [score] never drops, and the score of the last render is at
    most the current one. *)
Lemma ammo_above_score_below acts :
  let w := play acts (@initial T) in
  ammo (gameState w) <= 30 /\
  0 <= score (renderedState w) <= score (gameState w).
Proof.
  cbv zeta. induction acts as [|a acts IH] using rev_ind.
  - cbn. lia.
  - rewrite play_snoc. destruct IH as (A & S).
    destruct a as [op|]; cbn [act].
    + destruct (handle_closures op (play acts initial)) as [C _]. rewrite C.
      pose proof (handle_score op (play acts initial)) as Sc.
      split.
      * destruct (handle_ammo op (play acts initial)) as [E|[[P E]|E]]; rewrite E; lia.
      * destruct (accepted op _); lia.
    + destruct (render_committed (play acts initial)) as [C _].
      rewrite C, render_gameState. lia.
Qed.

(** When the closures are up to date, a handler followed by its render keeps
    [ammo] between 0 and 30. *)
Lemma ammo_bounds_step op w :
  ammo (renderedState w) = ammo (gameState w) ->
  0 <= ammo (gameState w) <= 30 ->
  0 <= ammo (gameState (step op w)) <= 30.
Proof.
  intros C H. unfold step. rewrite render_gameState.
  destruct (handle_ammo op w) as [E|[[P E]|E]]; rewrite E; lia.
Qed.

(** In a session where every event is rendered before the next one is
    handled, [0 <= ammo <= 30] and [0 <= score], and no operation lowers
    [score]. *)
Lemma ammo_score_when_rendered_each_time ops :
  let w := run ops (@initial T) in
  0 <= ammo (gameState w) <= 30 /\
  0 <= score (gameState w) /\
  forall op, score (gameState w) <= score (gameState (step op w)).
Proof.
  cbv zeta. induction ops as [|op ops IH] using rev_ind.
  - split; [|split]; [cbn; lia | cbn; lia |].
    intro op. apply score_monotone_step.
  - rewrite run_snoc. destruct IH as (A & S & M).
    split.
    + apply ammo_bounds_step; [|exact A].
      destruct (run_committed ops) as [C _]. rewrite C. reflexivity.
    + split; [specialize (M op); lia|].
      intro op'. apply score_monotone_step.
Qed.


(** After a render the effect's remembered dependency is the score. *)
Lemma run_effectDeps ops :
  effectDeps (run ops (@initial T)) = Some (score (gameState (run ops (@initial T)))).
Proof.
  destruct ops as [|op ops] using rev_ind.
  - reflexivity.
  - rewrite run_snoc. apply step_effectDeps.
Qed.

(** The effect's remembered dependency is the score of the last render. *)
Lemma play_effectDeps acts :
  effectDeps (play acts (@initial T)) =
  Some (score (renderedState (play acts (@initial T)))).
Proof.
  induction acts as [|a acts IH] using rev_ind.
  - reflexivity.
  - rewrite play_snoc. destruct a as [op|]; cbn [act].
    + rewrite handle_effectDeps, IH.
      destruct (handle_closures op (play acts initial)) as [C _]. rewrite C. reflexivity.
    + rewrite render_effectDeps.
      destruct (render_committed (play acts initial)) as [C _]. rewrite C.
      rewrite render_gameState. reflexivity.
Qed.

(** C1, as the code has it.  In any session, however the renders fall: a
    handler by itself posts nothing; a render posts the completion message,
    for the score it shows and to both receivers, exactly when that score
    differs from the score of the previous render and is at least 50.  So the
    message is posted once per render that shows a new score of 50 or more,
    whether or not one was posted before, and hits rendered together are
    announced together. *)
Theorem completion_emitted_once_per_render acts :
  let w := play acts (@initial T) in
  (forall op, posted (handle op w) = posted w) /\
  posted (render w) =
  posted w ++
    (if negb (score (gameState w) =? score (renderedState w))
        && (50 <=? score (gameState w))
     then [(Window, completionMessage (score (gameState w)));
           (Parent, completionMessage (score (gameState w)))]
     else []).
Proof.
  cbv zeta. set (w := play acts initial).
  split; [intro op; apply handle_posted|].
  pose proof (play_effectDeps acts) as D. fold w in D.
  unfold render, useEffect. cbn. rewrite D.
  rewrite (Z.eqb_sym (score (gameState w))).
  destruct (score (renderedState w) =? score (gameState w)); cbn.
  - rewrite app_nil_r. reflexivity.
  - unfold completionEffect. destruct (50 <=? _); reflexivity.
Qed.

(** C7. Whatever the state, an event posts either nothing or exactly two
    messages, the first to [window] and the second to [window.parent], both
    equal to [{type: "BLOCK_COMPLETION", blockId: "mini-fps-game",
    completed: true, score: <the score just rendered>, maxScore: 50}]. *)
Theorem completion_message_shape op w :
  let m :=
    {| Message.type := "BLOCK_COMPLETION";
       Message.blockId := "mini-fps-game";
       Message.completed := true;
       Message.score := score (gameState (step op w));
       Message.maxScore := 50 |} in
  posted (step op w) = posted w \/
  posted (step op w) = posted w ++ [(Window, m); (Parent, m)].
Proof.
  cbv zeta. unfold step. rewrite render_gameState.
  assert (P := handle_posted op w).
  unfold render, useEffect. cbn.
  assert (C : completionEffect (score (gameState (handle op w))) = [] \/
              completionEffect (score (gameState (handle op w))) =
              [(Window, completionMessage (score (gameState (handle op w))));
               (Parent, completionMessage (score (gameState (handle op w))))]).
  { unfold completionEffect. destruct (50 <=? _); auto. }
  destruct (effectDeps (handle op w)) as [d|]; [destruct (d =? _)|]; cbn;
    rewrite ?P; auto;
    destruct C as [C|C]; rewrite C, ?app_nil_r; auto.
Qed.

End Session.

(* ================================================================== *)
(** ** The handlers, one by one *)
(* ================================================================== *)

Section Handlers.
Context {T : Type} {N : Number T}.
Implicit Types (w : World T) (op : Op T) (ops : list (Op T)) (camera : Camera T).


Lemma setGameState_id w : setGameState (fun prev => prev) w = w.
Proof. destruct w; reflexivity. Qed.

Lemma gameState_eta (g : GameState T) :
  {| score := score g; ammo := ammo g; bullets := bullets g |} = g.
Proof. destruct g; reflexivity. Qed.

(** *** [reload] *)

(** C6. Whatever the state and its ammo, [reload] returns (it is a total
    function) a state whose [ammo] is exactly 30, with every other component
    as it was. *)
Theorem reload_sets_ammo_to_30 w :
  ammo (gameState (reload w)) = 30 /\
  score (gameState (reload w)) = score (gameState w) /\
  bullets (gameState (reload w)) = bullets (gameState w) /\
  bulletIdCounter (reload w) = bulletIdCounter w /\
  enemies (reload w) = enemies w /\
  timers (reload w) = timers w /\
  meshes (reload w) = meshes w /\
  effectDeps (reload w) = effectDeps w /\
  posted (reload w) = posted w /\
  renderedState (reload w) = renderedState w /\
  renderedEnemies (reload w) = renderedEnemies w.
Proof. repeat split. Qed.

(** *** [removeBullet] *)

Lemma removeBullet_bullets bulletId w :
  bullets (gameState (removeBullet bulletId w)) =
  filter (keeps bulletId) (bullets (gameState w)).
Proof. reflexivity. Qed.

Lemma filter_keeps_absent bulletId (l : list (Bullet T)) :
  ~ In bulletId (map id l) -> filter (keeps bulletId) l = l.
Proof.
  induction l as [|b l IH]; cbn; intro H; [reflexivity|].
  unfold keeps at 1.
  destruct (id b =? bulletId) eqn:E; cbn.
  - apply Z.eqb_eq in E. tauto.
  - rewrite IH by tauto. reflexivity.
Qed.

Lemma filter_keeps_twice bulletId (l : list (Bullet T)) :
  filter (keeps bulletId) (filter (keeps bulletId) l) = filter (keeps bulletId) l.
Proof.
  induction l as [|b l IH]; cbn; [reflexivity|].
  destruct (keeps bulletId b) eqn:E; cbn; rewrite ?E, IH; reflexivity.
Qed.

Lemma keeps_true bulletId (b : Bullet T) : keeps bulletId b = true <-> id b <> bulletId.
Proof.
  unfold keeps. rewrite negb_true_iff. apply Z.eqb_neq.
Qed.

(** C8. [removeBullet] removes the bullet with the given id and nothing
    else; when no bullet has that id the state is returned unchanged (there
    is no error to signal: the function is total); removing the same id
    twice gives the same state as removing it once. *)
Theorem removeBullet_tolerates_absent_id bulletId w :
  (forall b, In b (bullets (gameState (removeBullet bulletId w))) <->
             In b (bullets (gameState w)) /\ id b <> bulletId) /\
  ~ In bulletId (map id (bullets (gameState (removeBullet bulletId w)))) /\
  (~ In bulletId (map id (bullets (gameState w))) -> removeBullet bulletId w = w) /\
  removeBullet bulletId (removeBullet bulletId w) = removeBullet bulletId w.
Proof.
  split; [|split; [|split]].
  - intro b. rewrite removeBullet_bullets, filter_In, keeps_true. reflexivity.
  - rewrite removeBullet_bullets, in_map_iff. intros (b & E & I).
    apply filter_In in I. destruct I as [_ K]. apply keeps_true in K. tauto.
  - intro A. unfold removeBullet, setGameState. cbn.
    rewrite (filter_keeps_absent _ _ A), gameState_eta.
    destruct w; reflexivity.
  - unfold removeBullet, setGameState. cbn.
    rewrite filter_keeps_twice. reflexivity.
Qed.

(** *** [registerHit] and the cool-down timer *)

Lemma findEnemy_setHit targetId b w :
  findEnemy targetId (setHit targetId b w) = option_map (withHit b) (findEnemy targetId w).
Proof.
  unfold findEnemy, setHit. cbn.
  induction (enemies w) as [|e es IH]; cbn; [reflexivity|].
  destruct (enemy_id e =? targetId) eqn:E; cbn; rewrite ?E; [reflexivity|exact IH].
Qed.

Lemma findEnemy_id targetId w e : findEnemy targetId w = Some e -> enemy_id e = targetId.
Proof.
  unfold findEnemy. intro F. apply find_some in F. apply Z.eqb_eq. tauto.
Qed.

(** A pick is decided by the [hit] the target had at the last render. *)
Lemma registerHit_idle targetId w e :
  findRenderedEnemy targetId w = Some e -> hit e = false ->
  registerHit targetId w =
    (setTimeout targetId (handleEnemyHit targetId (setHit targetId true w)), true).
Proof.
  intros F H. unfold registerHit. rewrite F. unfold handleClick. rewrite H. cbn.
  unfold findRenderedEnemy in F. apply find_some in F.
  destruct F as [_ F]. apply Z.eqb_eq in F. rewrite F. reflexivity.
Qed.

Lemma registerHit_cooling targetId w e :
  findRenderedEnemy targetId w = Some e -> hit e = true ->
  registerHit targetId w = (w, false).
Proof.
  intros F H. unfold registerHit. rewrite F. unfold handleClick. rewrite H. reflexivity.
Qed.

(** *** Frame properties *)

Lemma filter_keeps_order bulletId (l1 l2 l3 : list (Bullet T)) b1 b2 :
  id b1 <> bulletId -> id b2 <> bulletId ->
  filter (keeps bulletId) (l1 ++ b1 :: l2 ++ b2 :: l3) =
  filter (keeps bulletId) l1 ++ b1 :: filter (keeps bulletId) l2
    ++ b2 :: filter (keeps bulletId) l3.
Proof.
  intros H1 H2. apply keeps_true in H1, H2.
  rewrite filter_app. cbn. rewrite H1, filter_app. cbn. rewrite H2. reflexivity.
Qed.

(** C10. [shoot] never changes [score]; a hit never changes [ammo] or the
    bullets; [removeBullet] never changes [score] or [ammo], and two bullets
    it keeps stay in the order they were in. *)
Theorem handlers_touch_their_own_component w :
  (forall camera, score (gameState (shoot camera w)) = score (gameState w)) /\
  (forall targetId,
      ammo (gameState (fst (registerHit targetId w))) = ammo (gameState w) /\
      bullets (gameState (fst (registerHit targetId w))) = bullets (gameState w)) /\
  (forall bulletId,
      score (gameState (removeBullet bulletId w)) = score (gameState w) /\
      ammo (gameState (removeBullet bulletId w)) = ammo (gameState w) /\
      forall l1 b1 l2 b2 l3,
        bullets (gameState w) = l1 ++ b1 :: l2 ++ b2 :: l3 ->
        id b1 <> bulletId -> id b2 <> bulletId ->
        exists l1' l2' l3',
          bullets (gameState (removeBullet bulletId w)) =
          l1' ++ b1 :: l2' ++ b2 :: l3').
Proof.
  split; [|split].
  - intro camera. unfold shoot. destruct (_ <=? 0); reflexivity.
  - intro targetId.
    destruct (registerHit_cases targetId w) as [H|H]; rewrite H; split; reflexivity.
  - intro bulletId. split; [reflexivity|]. split; [reflexivity|].
    intros l1 b1 l2 b2 l3 E H1 H2.
    rewrite removeBullet_bullets, E, filter_keeps_order by assumption.
    eauto.
Qed.

End Handlers.

(* ================================================================== *)
(** ** [shoot]: bullet ids and meshes *)
(* ================================================================== *)

Section Shooting.
Context {T : Type} {N : Number T}.
Implicit Types (w : World T) (op : Op T) (ops : list (Op T)) (camera : Camera T).

(** The bullet [shoot] builds from the camera and the id counter. *)
Lemma shoot_fires camera w :
  0 < ammo (renderedState w) ->
  shoot camera w =
  setGameState (fun prev =>
    {| score := score prev; ammo := ammo prev;
       bullets := bullets prev ++
         [{| id := bulletIdCounter w;
             position := clone (camera_position camera);
             direction :=
               normalize (applyQuaternion {| x := num 0; y := num 0; z := num (-1) |}
                                          (camera_quaternion camera)) |}] |})
    (set_bulletIdCounter (bulletIdCounter w + 1)
       (setGameState (fun prev =>
          {| score := score prev; ammo := ammo prev - 1; bullets := bullets prev |}) w)).
Proof.
  intro A. unfold shoot.
  destruct (ammo (renderedState w) <=? 0) eqn:E; [apply Z.leb_le in E; lia|reflexivity].
Qed.

Lemma shoot_empty camera w : ammo (renderedState w) <= 0 -> shoot camera w = w.
Proof.
  intro A. unfold shoot. apply Z.leb_le in A. rewrite A. reflexivity.
Qed.

(** What a handler does to the bullets and to the id counter: it filters the
    bullets and keeps the counter, or appends one bullet whose id is the
    counter and increments the counter. *)
Lemma handle_bullets op w :
  (bulletIdCounter (handle op w) = bulletIdCounter w /\
   exists p, bullets (gameState (handle op w)) = filter p (bullets (gameState w))) \/
  (bulletIdCounter (handle op w) = bulletIdCounter w + 1 /\
   exists b, id b = bulletIdCounter w /\
             bullets (gameState (handle op w)) = bullets (gameState w) ++ [b]).
Proof.
  assert (Same : forall l : list (Bullet T), l = filter (fun _ => true) l).
  { induction l as [|b l IH]; cbn; congruence. }
  assert (Kept : forall w' : World T,
            bulletIdCounter w' = bulletIdCounter w ->
            bullets (gameState w') = bullets (gameState w) ->
            bulletIdCounter w' = bulletIdCounter w /\
            exists p, bullets (gameState w') = filter p (bullets (gameState w))).
  { intros w' C E. split; [exact C|]. exists (fun _ => true). rewrite E. apply Same. }
  destruct op as [camera| |projectileId delta|projectileId|targetId|targetId]; cbn.
  - destruct (Z.le_gt_cases (ammo (renderedState w)) 0) as [A|A].
    + rewrite (shoot_empty camera w A). left. apply Kept; reflexivity.
    + rewrite (shoot_fires camera w A). cbn. right.
      split; [reflexivity|]. eexists. split; [|reflexivity]. reflexivity.
  - left. apply Kept; reflexivity.
  - destruct (tick_keeps projectileId delta w) as (_ & _ & C & _).
    left. destruct (tick_gameState projectileId delta w) as [E|E].
    + apply Kept; [exact C|]. rewrite E. reflexivity.
    + split; [exact C|]. rewrite E. exists (keeps projectileId). reflexivity.
  - left. split; [reflexivity|]. exists (keeps projectileId). reflexivity.
  - left. destruct (registerHit_cases targetId w) as [H|H]; rewrite H;
      apply Kept; reflexivity.
  - left. apply Kept; reflexivity.
Qed.

Lemma idsBelowCounter_step op w : idsBelowCounter w -> idsBelowCounter (step op w).
Proof.
  unfold idsBelowCounter, step. rewrite render_gameState, render_bulletIdCounter.
  rewrite !Forall_forall. intros I b B.
  destruct (handle_bullets op w) as [[C [p E]]|[C [b' [Ib E]]]]; rewrite C.
  - rewrite E in B. apply filter_In in B. apply I. tauto.
  - rewrite E in B. apply in_app_or in B. destruct B as [B|[B|[]]].
    + specialize (I _ B). lia.
    + subst b'. lia.
Qed.

Lemma idsBelowCounter_run ops : idsBelowCounter (run ops (@initial T)).
Proof.
  induction ops as [|op ops IH] using rev_ind.
  - constructor.
  - rewrite run_snoc. apply idsBelowCounter_step, IH.
Qed.

Lemma bulletIdCounter_step op w : bulletIdCounter w <= bulletIdCounter (step op w).
Proof.
  unfold step. rewrite render_bulletIdCounter.
  destruct (handle_bullets op w) as [[C _]|[C _]]; rewrite C; lia.
Qed.

Lemma newIds_incl (before after : list (Bullet T)) i :
  In i (newIds before after) -> In i (map id after).
Proof. unfold newIds. intro H. apply filter_In in H. tauto. Qed.

Lemma idsAssigned_snoc ops op w :
  idsAssigned (ops ++ [op]) w =
  idsAssigned ops w ++
    newIds (bullets (gameState (run ops w))) (bullets (gameState (step op (run ops w)))).
Proof.
  revert w; induction ops as [|o ops IH]; intro w; cbn.
  - rewrite app_nil_r. reflexivity.
  - rewrite IH, app_assoc. reflexivity.
Qed.

(** Every id handed out so far is below the counter. *)
Lemma idsAssigned_below ops :
  Forall (fun i => i < bulletIdCounter (run ops (@initial T))) (idsAssigned ops initial).
Proof.
  induction ops as [|op ops IH] using rev_ind.
  - constructor.
  - rewrite idsAssigned_snoc, run_snoc. apply Forall_app. split.
    + eapply Forall_impl; [|exact IH]. intros i Hi. cbv beta in Hi |- *.
      pose proof (bulletIdCounter_step op (run ops initial)). lia.
    + apply Forall_forall. intros i Hi. apply newIds_incl in Hi.
      apply in_map_iff in Hi. destruct Hi as (b & <- & B).
      pose proof (idsBelowCounter_step op (idsBelowCounter_run ops)) as I.
      unfold idsBelowCounter in I. rewrite Forall_forall in I. apply I, B.
Qed.


(** *** The bullet meshes *)

Lemma reconcile_keys (bs : list (Bullet T)) ms : map fst (reconcile bs ms) = map id bs.
Proof. unfold reconcile. rewrite map_map. reflexivity. Qed.

Lemma run_mesh_keys ops :
  map fst (meshes (run ops (@initial T))) = map id (bullets (gameState (run ops (@initial T)))).
Proof.
  destruct ops as [|op ops] using rev_ind.
  - reflexivity.
  - rewrite run_snoc. unfold step.
    rewrite render_meshes, render_gameState. apply reconcile_keys.
Qed.

Lemma lookupMesh_absent key (ms : list (Z * Vector3 T)) :
  ~ In key (map fst ms) -> lookupMesh key ms = None.
Proof.
  induction ms as [|[k m] ms IH]; cbn; intro A; [reflexivity|].
  destruct (k =? key) eqn:E.
  - apply Z.eqb_eq in E. tauto.
  - apply IH. tauto.
Qed.

Lemma lookupMesh_reconcile_mounted (bs : list (Bullet T)) b ms :
  ~ In (id b) (map id bs) ->
  lookupMesh (id b) ms = None ->
  lookupMesh (id b) (reconcile (bs ++ [b]) ms) = Some (clone (position b)).
Proof.
  intros F A. unfold reconcile. rewrite map_app.
  induction bs as [|b' bs IH]; cbn.
  - rewrite Z.eqb_refl, A. reflexivity.
  - cbn in F. destruct (id b' =? id b) eqn:E.
    + apply Z.eqb_eq in E. tauto.
    + apply IH. tauto.
Qed.


End Shooting.

(* ================================================================== *)
(** ** A bullet in flight, in exact arithmetic *)
(* ================================================================== *)

Section ExactFlight.
Implicit Types (origin dir mesh : Vector3 R) (deltas : list R).
Local Open Scope R_scope.

Lemma R_gtb_true (a b : R) : R_gtb a b = true <-> a > b.
Proof.
  unfold R_gtb. destruct (Rlt_dec b a) as [H|H]; split; intro G;
    try reflexivity; try discriminate; try exact H. contradiction.
Qed.

Lemma add_multiplyScalar_step origin dir (s t : R) :
  add (add origin (multiplyScalar dir s)) (multiplyScalar (clone dir) t) =
  add origin (multiplyScalar dir (s + t)).
Proof.
  unfold add, multiplyScalar, clone; cbn. f_equal; ring.
Qed.

Lemma lengthSq_nonneg dir : 0 <= lengthSq dir.
Proof.
  unfold lengthSq; cbn.
  pose proof (Rle_0_sqr (x dir)). pose proof (Rle_0_sqr (y dir)).
  pose proof (Rle_0_sqr (z dir)). unfold Rsqr in *. lra.
Qed.

(** The distance travelled along [dir] after a total displacement factor
    [t]. *)
Lemma distanceTo_travelled origin dir (t : R) :
  distanceTo (add origin (multiplyScalar dir t)) (clone origin) = Rabs t * length dir.
Proof.
  unfold distanceTo, distanceToSquared, length, add, multiplyScalar, clone; cbn.
  replace ((x origin + x dir * t - x origin) * (x origin + x dir * t - x origin) +
           (y origin + y dir * t - y origin) * (y origin + y dir * t - y origin) +
           (z origin + z dir * t - z origin) * (z origin + z dir * t - z origin))
    with (Rsqr t * lengthSq dir)
    by (unfold Rsqr, lengthSq; cbn; ring).
  rewrite sqrt_mult; [|apply Rle_0_sqr|apply lengthSq_nonneg].
  rewrite sqrt_Rsqr_abs. reflexivity.
Qed.

Lemma bulletFrame_exact origin dir (acc delta : R) :
  length dir = 1 -> 0 <= acc + delta ->
  bulletFrame origin dir (add origin (multiplyScalar dir (50 * acc))) delta =
  (add origin (multiplyScalar dir (50 * (acc + delta))),
   R_gtb (50 * (acc + delta)) 100).
Proof.
  intros U P. unfold bulletFrame, speed, maxDistance.
  change (nmul (num 50) delta) with (50 * delta).
  change (num 100) with 100.
  rewrite add_multiplyScalar_step.
  replace (50 * acc + 50 * delta) with (50 * (acc + delta)) by ring.
  rewrite distanceTo_travelled, U, Rmult_1_r, Rabs_right by lra.
  reflexivity.
Qed.

Lemma bulletFrames_exact origin dir deltas : forall acc : R,
  length dir = 1 -> 0 <= acc -> Forall (fun d => 0 <= d) deltas ->
  fst (bulletFrames origin dir (add origin (multiplyScalar dir (50 * acc))) deltas) =
    add origin (multiplyScalar dir (50 * (acc + sumR deltas))) /\
  Forall2 (fun expired s => expired = true <-> s * 50 > 100)
          (snd (bulletFrames origin dir (add origin (multiplyScalar dir (50 * acc))) deltas))
          (prefixSums acc deltas).
Proof.
  induction deltas as [|d deltas IH]; intros acc U A F; cbn [bulletFrames sumR prefixSums].
  - cbn. rewrite Rplus_0_r. split; [reflexivity|constructor].
  - inversion F as [|d' ds Pd Pds]; subst.
    rewrite bulletFrame_exact by (assumption || lra).
    destruct (IH (acc + d) U ltac:(lra) Pds) as [P Q].
    destruct (bulletFrames origin dir _ deltas) as [m flags]. cbn [fst snd] in *.
    split.
    + rewrite P. do 2 f_equal. ring.
    + constructor; [|exact Q].
      rewrite R_gtb_true. split; intro G; lra.
Qed.


Lemma add_multiplyScalar_zero origin dir :
  add origin (multiplyScalar dir (50 * 0)) = origin.
Proof.
  destruct origin as [ox oy oz]. unfold add, multiplyScalar; cbn. f_equal; ring.
Qed.

(** C5, in exact arithmetic.  For a bullet whose direction has length 1 and
    frame deltas that are not negative, the mesh position after the frames is
    [origin + direction * (50 * (delta_1 + ... + delta_n))], and the flag of
    each frame ([onRemove] called) is true exactly when the deltas up to and
    including that frame, times 50, exceed 100. *)
Theorem bullet_flight_exact origin dir deltas :
  length dir = 1 ->
  Forall (fun d => 0 <= d) deltas ->
  fst (bulletFrames origin dir origin deltas) =
    add origin (multiplyScalar dir (50 * sumR deltas)) /\
  Forall2 (fun expired s => expired = true <-> s * 50 > 100)
          (snd (bulletFrames origin dir origin deltas))
          (prefixSums 0 deltas).
Proof.
  intros U F.
  destruct (@bulletFrames_exact origin dir deltas 0 U ltac:(lra) F) as [P Q].
  rewrite add_multiplyScalar_zero in P, Q.
  rewrite Rplus_0_l in P. split; assumption.
Qed.

End ExactFlight.

(* ================================================================== *)
(** ** Concrete runs *)
(* ================================================================== *)

Section Scenarios.

(** The first end-to-end scenario of the specification: thirty shots empty
    the magazine and leave thirty bullets, a further shot changes nothing, and
    a reload refills the magazine without touching the bullets. *)
Example thirty_shots :
  let w30 := run (repeat (Shoot cameraF) 30) initial in
  ammo (gameState w30) = 0 /\
  List.length (bullets (gameState w30)) = 30%nat /\
  step (Shoot cameraF) w30 = w30 /\
  ammo (gameState (step Reload w30)) = 30 /\
  bullets (gameState (step Reload w30)) = bullets (gameState w30).
Proof. vm_compute. repeat split. Qed.

(** The second one: a hit on target 1, a second hit during its cool-down, the
    timer, a third hit. *)
Example hit_cooldown_hit :
  scores [RegisterHit 1; RegisterHit 1; TargetCooldownExpired 1; RegisterHit 1]
         (@initial float) = [10; 10; 10; 20].
Proof. vm_compute. reflexivity. Qed.

(** C1 fails as stated: along the score sequence 10, 20, 30, 40, 50, 60 the
    completion message is posted twice to each receiver, once when the score
    reaches 50 and again when it reaches 60. *)
Lemma completion_emitted_twice :
  scores sixHits initial = [10; 20; 30; 40; 50; 50; 60] /\
  notifications Window (run sixHits initial) = 2%nat /\
  notifications Parent (run sixHits initial) = 2%nat /\
  map (fun p => Message.score (snd p)) (posted (run sixHits initial)) = [50; 50; 60; 60].
Proof. vm_compute. repeat split. Qed.

(** C5 fails as stated on the program's numbers.  A bullet fired from the
    origin along the unit vector (0, 0, -1) and ticked with deltas 0.1 and 0.2
    is at z = -15, while [origin + direction * 50 * (0.1 + 0.2)] has
    z = -15.000000000000002.  Ticked twenty times with delta 0.1 it has
    travelled exactly 100 and is not expired, while [(0.1 + ... + 0.1) * 50]
    is 100.00000000000003, which exceeds 100. *)
Lemma bullet_flight_rounds :
  length forwardF = 1%float /\
  fst (bulletFrames zeroF forwardF zeroF [0.1; 0.2]%float) <>
    add zeroF (multiplyScalar forwardF (nmul (num 50) (total [0.1; 0.2]%float))) /\
  nth 19 (snd (bulletFrames zeroF forwardF zeroF (repeat 0.1%float 20))) true = false /\
  ngtb (nmul (total (repeat 0.1%float 20)) (num 50)) (num 100) = true.
Proof.
  split; [vm_compute; reflexivity|].
  split; [|split; vm_compute; reflexivity].
  intro H.
  apply (f_equal (fun v => PrimFloat.eqb (z v) (-15)%float)) in H.
  vm_compute in H. discriminate H.
Qed.

(** Two hits rendered together are announced together: the scores go from
    40 to 60 in one render, and the message is posted once, for 60. *)
Example two_hits_one_render :
  score (gameState (play twoHitsInOneRender initial)) = 60 /\
  map (fun p => Message.score (snd p)) (posted (play twoHitsInOneRender initial)) = [60; 60].
Proof. vm_compute. split; reflexivity. Qed.

(** C2 fails on the code.  [shoot] tests the ammo of the last render and
    decrements the ammo of the state: after twenty-nine rendered shots, two
    clicks that are handled before the next render both fire on the one
    round left, and [ammo] is -1, also after the render that follows. *)
Theorem ammo_goes_below_zero :
  let w := play twoClicksOnOneRound initial in
  ammo (renderedState w) = 1 /\
  ammo (gameState w) = -1 /\
  List.length (bullets (gameState w)) = 31%nat /\
  ammo (gameState (render w)) = -1.
Proof. vm_compute. repeat split. Qed.

(** C3 fails on the code.  With no round left in the state but one at the
    last render, [shoot] fires all the same; with a full magazine in the
    state but none at the last render, [shoot] does nothing. *)
Theorem shoot_is_decided_by_the_last_render :
  let w := play lastRoundFired initial in
  let w' := play reloadedNotRendered initial in
  ammo (gameState w) = 0 /\
  ammo (gameState (shoot cameraF w)) = -1 /\
  List.length (bullets (gameState (shoot cameraF w))) =
    S (List.length (bullets (gameState w))) /\
  ammo (gameState w') = 30 /\
  shoot cameraF w' = w'.
Proof. vm_compute. repeat split. Qed.

(** C4 fails on the code.  [handleClick] tests the [hit] of the last
    render: a second pick of target 1 before the render is accepted although
    the first one has put the target in cool-down; the score is 20 and two
    timers are pending. *)
Theorem second_pick_before_render_is_accepted :
  let w := fst (registerHit 1 (@initial float)) in
  findEnemy 1 w = Some {| enemy_id := 1; enemy_position := (5, 1, -10); hit := true |} /\
  snd (registerHit 1 w) = true /\
  score (gameState (play twoPicks initial)) = 20 /\
  timers (play twoPicks initial) = [1; 1].
Proof. vm_compute. repeat split. Qed.

(** Removing a bullet that does not exist, at the initial state. *)
Lemma removeBullet_tolerates_absent_id_witness :
  removeBullet 7 (@initial float) = initial.
Proof.
  apply (proj1 (proj2 (proj2 (@removeBullet_tolerates_absent_id float 7 initial)))).
  intros [].
Defined.

(** Three shots, then the second bullet removed: the first and the third
    stay in that order. *)
Lemma handlers_touch_their_own_component_witness :
  exists l1 l2 l3,
    bullets (gameState (removeBullet 1 (run (repeat (Shoot cameraF) 3) initial))) =
    l1 ++ {| id := 0; position := eyeF; direction := forwardF |}
       :: l2 ++ {| id := 2; position := eyeF; direction := forwardF |} :: l3.
Proof.
  refine (proj2 (proj2 (proj2 (proj2
            (@handlers_touch_their_own_component float _
               (run (repeat (Shoot cameraF) 3) initial))) 1))
            [] {| id := 0; position := eyeF; direction := forwardF |}
            [{| id := 1; position := eyeF; direction := forwardF |}]
            {| id := 2; position := eyeF; direction := forwardF |} [] _ _ _).
  - vm_compute. reflexivity.
  - discriminate.
  - discriminate.
Defined.

(** A bullet fired from (0, 1, 0) along (0, 0, -1), over frames of one and
    two seconds. *)
Lemma bullet_flight_exact_witness :
  fst (bulletFrames eyeR forwardR eyeR [1; 2]%R) =
    add eyeR (multiplyScalar forwardR (50 * sumR [1; 2])%R) /\
  Forall2 (fun expired s => expired = true <-> (s * 50 > 100)%R)
          (snd (bulletFrames eyeR forwardR eyeR [1; 2]%R))
          (prefixSums 0%R [1; 2]%R).
Proof.
  apply bullet_flight_exact.
  - unfold length, lengthSq, forwardR; cbn.
    replace (0 * 0 + 0 * 0 + -1 * -1)%R with 1%R by lra.
    apply sqrt_1.
  - repeat constructor; lra.
Defined.

End Scenarios.

(* ================================================================== *)
(** ** Bullet ids along a session *)
(* ================================================================== *)

Section BulletIds.
Context {T : Type} {N : Number T}.
Implicit Types (w : World T) (op : Op T) (ops : list (Op T)) (camera : Camera T).
Implicit Types (acts : list (Action T)) (a : Action T).

Lemma StronglySorted_filter (p : Z -> bool) (l : list Z) :
  StronglySorted Z.lt l -> StronglySorted Z.lt (filter p l).
Proof.
  induction 1 as [|a l S IH F]; cbn; [constructor|].
  destruct (p a); [|exact IH].
  constructor; [exact IH|].
  rewrite Forall_forall in *. intros i I. apply filter_In in I. apply F. tauto.
Qed.

Lemma StronglySorted_snoc (l : list Z) (k : Z) :
  StronglySorted Z.lt l -> Forall (fun i => i < k) l -> StronglySorted Z.lt (l ++ [k]).
Proof.
  induction 1 as [|a l S IH F]; cbn; intro B.
  - repeat constructor.
  - inversion B as [|a' l' Ba Bl]; subst.
    constructor; [apply IH, Bl|].
    apply Forall_app. split; [exact F|]. repeat constructor. exact Ba.
Qed.

Lemma StronglySorted_NoDup (l : list Z) : StronglySorted Z.lt l -> NoDup l.
Proof.
  induction 1 as [|a l S IH F]; constructor; [|exact IH].
  intro I. rewrite Forall_forall in F. specialize (F _ I). lia.
Qed.

Lemma sorted_ids_filter (p : Bullet T -> bool) (l : list (Bullet T)) :
  StronglySorted Z.lt (map id l) -> StronglySorted Z.lt (map id (filter p l)).
Proof.
  induction l as [|b l IH]; cbn; intro S; [constructor|].
  inversion S as [|a l' S' F]; subst.
  destruct (p b); cbn; [|apply IH, S'].
  constructor; [apply IH, S'|].
  rewrite Forall_forall in *. intros i I. apply F.
  apply in_map_iff in I. destruct I as (b' & E & I). apply filter_In in I.
  apply in_map_iff. exists b'. tauto.
Qed.

Lemma idsOrdered_step op w : idsOrdered w -> idsOrdered (step op w).
Proof.
  unfold idsOrdered, bulletIds, step.
  rewrite render_gameState, render_bulletIdCounter.
  intros (C & B & S).
  destruct (handle_bullets op w) as [[E [p F]]|[E [b [Ib F]]]]; rewrite E, F.
  - split; [exact C|]. split; [|apply sorted_ids_filter, S].
    rewrite Forall_forall in *. intros i I. apply B.
    apply in_map_iff in I. destruct I as (b' & Eb & I). apply filter_In in I.
    apply in_map_iff. exists b'. tauto.
  - rewrite map_app. cbn [map]. rewrite Ib.
    split; [lia|]. split.
    + apply Forall_app. split.
      * eapply Forall_impl; [|exact B]. intros i Hi. cbv beta in Hi |- *. lia.
      * repeat constructor; lia.
    + apply StronglySorted_snoc; [exact S|].
      eapply Forall_impl; [|exact B]. intros i Hi. cbv beta in Hi |- *. lia.
Qed.


Lemma idsOrdered_run ops : idsOrdered (run ops (@initial T)).
Proof.
  induction ops as [|op ops IH] using rev_ind.
  - repeat split; try constructor. cbn. lia.
  - rewrite run_snoc. apply idsOrdered_step, IH.
Qed.






Lemma shots_rendered_each_time (cameras : list (Camera T)) : forall w,
  ammo (renderedState w) = ammo (gameState w) ->
  0 <= ammo (gameState w) ->
  let k := Z.of_nat (List.length cameras) in
  let w' := run (map (@Shoot T) cameras) w in
  ammo (gameState w') = Z.max 0 (ammo (gameState w) - k) /\
  Z.of_nat (List.length (bullets (gameState w'))) =
    Z.of_nat (List.length (bullets (gameState w))) + Z.min (ammo (gameState w)) k /\
  bulletIdCounter w' = bulletIdCounter w + Z.min (ammo (gameState w)) k /\
  score (gameState w') = score (gameState w).
Proof.
  induction cameras as [|camera cameras IH]; intros w Sy A; cbv zeta.
  - cbn. repeat split; lia.
  - cbn [map run List.length].
    assert (S : gameState (step (Shoot camera) w) = gameState (shoot camera w))
      by (unfold step; apply render_gameState).
    assert (C : bulletIdCounter (step (Shoot camera) w) = bulletIdCounter (shoot camera w))
      by (unfold step; apply render_bulletIdCounter).
    assert (Sy' : ammo (renderedState (step (Shoot camera) w)) =
                  ammo (gameState (step (Shoot camera) w))).
    { destruct (step_committed (Shoot camera) w) as [E _]. rewrite E. reflexivity. }
    destruct (Z.le_gt_cases (ammo (renderedState w)) 0) as [Z0|P].
    + rewrite (shoot_empty camera w Z0) in S, C.
      assert (A' : 0 <= ammo (gameState (step (Shoot camera) w))) by (rewrite S; lia).
      destruct (IH _ Sy' A') as (I1 & I2 & I3 & I4).
      rewrite I1, I2, I3, I4, S, C. repeat split; lia.
    + rewrite (shoot_fires camera w P) in S, C. cbn in C.
      assert (Sa : ammo (gameState (step (Shoot camera) w)) = ammo (gameState w) - 1)
        by (rewrite S; reflexivity).
      assert (Sb : bullets (gameState (step (Shoot camera) w)) =
                   bullets (gameState w) ++
                     [{| id := bulletIdCounter w;
                         position := clone (camera_position camera);
                         direction := normalize (applyQuaternion
                           {| x := num 0; y := num 0; z := num (-1) |}
                           (camera_quaternion camera)) |}])
        by (rewrite S; reflexivity).
      assert (Ss : score (gameState (step (Shoot camera) w)) = score (gameState w))
        by (rewrite S; reflexivity).
      assert (A' : 0 <= ammo (gameState (step (Shoot camera) w))) by lia.
      destruct (IH _ Sy' A') as (I1 & I2 & I3 & I4).
      rewrite I1, I2, I3, I4, Sa, Sb, Ss, C, length_app. cbn [List.length].
      repeat split; lia.
Qed.

Lemma shots_in_one_render (cameras : list (Camera T)) : forall w,
  let k := Z.of_nat (List.length cameras) in
  let w' := play (map (fun camera => Handle (Shoot camera)) cameras) w in
  (ammo (renderedState w) <= 0 -> w' = w) /\
  (0 < ammo (renderedState w) ->
   ammo (gameState w') = ammo (gameState w) - k /\
   Z.of_nat (List.length (bullets (gameState w'))) =
     Z.of_nat (List.length (bullets (gameState w))) + k /\
   bulletIdCounter w' = bulletIdCounter w + k /\
   score (gameState w') = score (gameState w)).
Proof.
  induction cameras as [|camera cameras IH]; intro w; cbv zeta.
  - cbn. split; [reflexivity|]. intros _. repeat split; lia.
  - cbn [map play act handle List.length]. split.
    + intro Z0. rewrite (shoot_empty camera w Z0). apply (IH w), Z0.
    + intro P.
      assert (R : renderedState (shoot camera w) = renderedState w)
        by apply (handle_closures (Shoot camera) w).
      destruct (IH (shoot camera w)) as [_ F]. cbv zeta in F.
      rewrite R in F. destruct (F P) as (I1 & I2 & I3 & I4).
      rewrite I1, I2, I3, I4, (shoot_fires camera w P). cbn.
      rewrite length_app. cbn [List.length]. repeat split; lia.
Qed.

(** X3. From a state whose closures are up to date and which holds [a >= 0]
    rounds, [k] shots in a row, each rendered before the next, leave
    [max 0 (a - k)] rounds and add [min a k] bullets: the shots beyond the
    remaining ammo create nothing.  The same [k] shots handled before any
    render are all decided by the ammo of that one render: when it is
    positive all of them fire and leave [a - k] rounds, below zero when
    [k > a]; when it is not, none fires. *)
Theorem shots_spend_the_magazine (cameras : list (Camera T)) w :
  ammo (renderedState w) = ammo (gameState w) ->
  0 <= ammo (gameState w) ->
  let k := Z.of_nat (List.length cameras) in
  let each := play (eachCommitted (map (@Shoot T) cameras)) w in
  let together := play (map (fun camera => Handle (Shoot camera)) cameras) w in
  (ammo (gameState each) = Z.max 0 (ammo (gameState w) - k) /\
   Z.of_nat (List.length (bullets (gameState each))) =
     Z.of_nat (List.length (bullets (gameState w))) + Z.min (ammo (gameState w)) k /\
   bulletIdCounter each = bulletIdCounter w + Z.min (ammo (gameState w)) k /\
   score (gameState each) = score (gameState w)) /\
  (ammo (gameState w) = 0 -> together = w) /\
  (0 < ammo (gameState w) ->
   ammo (gameState together) = ammo (gameState w) - k /\
   Z.of_nat (List.length (bullets (gameState together))) =
     Z.of_nat (List.length (bullets (gameState w))) + k /\
   bulletIdCounter together = bulletIdCounter w + k /\
   score (gameState together) = score (gameState w)).
Proof.
  intros Sy A. cbv zeta. rewrite play_eachCommitted.
  split; [apply shots_rendered_each_time; assumption|].
  destruct (shots_in_one_render cameras w) as [Z0 P]. cbv zeta in Z0, P.
  split.
  - intro E. apply Z0. lia.
  - intro Pos. apply P. lia.
Qed.

End BulletIds.

(* ================================================================== *)
(** ** Targets, cool-downs and timers along a session *)
(* ================================================================== *)

Section Targets.
Context {T : Type} {N : Number T}.
Implicit Types (w : World T) (op : Op T) (ops : list (Op T)).
Implicit Types (acts : list (Action T)) (a : Action T).

Lemma render_timers w : timers (render w) = timers w.
Proof.
  unfold render, useEffect; cbn.
  destruct (effectDeps w) as [d|]; [destruct (d =? _)|]; reflexivity.
Qed.

Lemma tick_timers projectileId delta w :
  timers (fst (tick projectileId delta w)) = timers w.
Proof. apply (tick_keeps_closures projectileId delta w). Qed.

(** What a handler does to the targets and the timers: nothing, or an
    accepted hit on a target that was idle at the last render, or the expiry
    of a cool-down. *)
Lemma handle_targets op w :
  (enemies (handle op w) = enemies w /\ timers (handle op w) = timers w /\
   accepted op w = false) \/
  (exists targetId e,
      op = RegisterHit targetId /\
      findRenderedEnemy targetId w = Some e /\ hit e = false /\ accepted op w = true /\
      enemies (handle op w) = enemies (setHit targetId true w) /\
      timers (handle op w) = timers w ++ [targetId]) \/
  (exists targetId,
      op = TargetCooldownExpired targetId /\ accepted op w = false /\
      enemies (handle op w) = enemies (setHit targetId false w) /\
      timers (handle op w) = removeFirst targetId (timers w)).
Proof.
  destruct op as [camera| |projectileId delta|projectileId|targetId|targetId]; cbn.
  - left. unfold shoot. destruct (_ <=? 0); auto.
  - left. auto.
  - left. rewrite tick_timers.
    destruct (tick_keeps projectileId delta w) as (_ & _ & _ & E & _). auto.
  - left. auto.
  - unfold registerHit.
    destruct (findRenderedEnemy targetId w) as [e|] eqn:F; [|left; auto].
    unfold handleClick. destruct (hit e) eqn:H; cbn; [left; auto|].
    right; left. exists targetId, e.
    assert (Id : enemy_id e = targetId).
    { unfold findRenderedEnemy in F. apply find_some in F. apply Z.eqb_eq. tauto. }
    rewrite Id. auto 8.
  - right; right. exists targetId. auto.
Qed.

Lemma step_targets op w :
  (enemies (step op w) = enemies w /\ timers (step op w) = timers w /\
   accepted op w = false) \/
  (exists targetId e,
      op = RegisterHit targetId /\
      findRenderedEnemy targetId w = Some e /\ hit e = false /\ accepted op w = true /\
      enemies (step op w) = enemies (setHit targetId true w) /\
      timers (step op w) = timers w ++ [targetId]) \/
  (exists targetId,
      op = TargetCooldownExpired targetId /\ accepted op w = false /\
      enemies (step op w) = enemies (setHit targetId false w) /\
      timers (step op w) = removeFirst targetId (timers w)).
Proof.
  unfold step. rewrite render_enemies, render_timers. apply handle_targets.
Qed.

Lemma In_removeFirst (k j : Z) (l : list Z) :
  NoDup l -> (In j (removeFirst k l) <-> In j l /\ j <> k).
Proof.
  induction l as [|a l IH]; cbn; intro D; [tauto|].
  inversion D as [|a' l' Na Dl]; subst.
  destruct (a =? k) eqn:E.
  - apply Z.eqb_eq in E. subst a. split.
    + intro I. split; [tauto|]. intro; subst j. tauto.
    + intros [[->|I] Hj]; [congruence|exact I].
  - apply Z.eqb_neq in E. cbn. rewrite (IH Dl). split.
    + intros [->|[I Hj]]; tauto.
    + intros [[->|I] Hj]; tauto.
Qed.

Lemma NoDup_removeFirst (k : Z) (l : list Z) : NoDup l -> NoDup (removeFirst k l).
Proof.
  induction l as [|a l IH]; cbn; intro D; [constructor|].
  inversion D as [|a' l' Na Dl]; subst.
  destruct (a =? k); [exact Dl|].
  constructor; [|apply IH, Dl].
  intro I. apply (In_removeFirst k a Dl) in I. tauto.
Qed.

Lemma In_setHit targetId b w e' :
  In e' (enemies (setHit targetId b w)) ->
  exists e, In e (enemies w) /\
            ((enemy_id e = targetId /\ e' = withHit b e) \/
             (enemy_id e <> targetId /\ e' = e)).
Proof.
  unfold setHit; cbn. intro I. apply in_map_iff in I.
  destruct I as (e & E & I). exists e. split; [exact I|].
  destruct (enemy_id e =? targetId) eqn:D.
  - apply Z.eqb_eq in D. left. auto.
  - apply Z.eqb_neq in D. right. auto.
Qed.

Lemma timersMatchHits_step op w :
  committed w -> timersMatchHits w -> timersMatchHits (step op w).
Proof.
  intros [_ Ce] [D M]. unfold timersMatchHits.
  destruct (step_targets op w) as
    [(E & Ti & _)|[(targetId & e0 & _ & F & H & _ & E & Ti)|(targetId & _ & _ & E & Ti)]];
    rewrite E, Ti.
  - split; assumption.
  - assert (Fresh : ~ In targetId (timers w)).
    { unfold findRenderedEnemy in F. rewrite Ce in F.
      apply find_some in F. destruct F as [I Id].
      apply Z.eqb_eq in Id. intro J. rewrite <- Id in J.
      apply (M e0 I) in J. congruence. }
    split.
    + apply NoDup_app; [exact D|repeat constructor; intros []|].
      intros k I [<-|[]]. contradiction.
    + intros e' I. apply In_setHit in I.
      destruct I as (e & I & [[Id ->]|[Id ->]]); cbn; rewrite in_app_iff.
      * split; intro; [right; left; congruence|reflexivity].
      * rewrite (M e I). cbn. split; [tauto|]. intros [J|[J|[]]]; [exact J|congruence].
  - split; [apply NoDup_removeFirst, D|].
    intros e' I. apply In_setHit in I.
    destruct I as (e & I & [[Id ->]|[Id ->]]); cbn; rewrite (In_removeFirst _ _ D).
    + split; [discriminate|]. intros [_ J]. congruence.
    + rewrite (M e I). tauto.
Qed.

Lemma timersMatchHits_run ops : timersMatchHits (run ops (@initial T)).
Proof.
  induction ops as [|op ops IH] using rev_ind.
  - split; [constructor|].
    intros e I. cbn in I.
    destruct I as [<-|[<-|[<-|[<-|[<-|[]]]]]]; cbn; split; (discriminate || tauto).
  - rewrite run_snoc. apply timersMatchHits_step; [apply run_committed|exact IH].
Qed.

Lemma In_removeFirst_weak (k j : Z) (l : list Z) :
  In j l -> j <> k -> In j (removeFirst k l).
Proof.
  induction l as [|a l IH]; cbn; intros I D; [contradiction|].
  destruct (a =? k) eqn:E.
  - apply Z.eqb_eq in E. destruct I as [->|I]; [congruence|exact I].
  - destruct I as [->|I]; [left; reflexivity|right; apply IH; assumption].
Qed.

(** In any session a target in cool-down has a pending timer. *)
Lemma hit_has_timer acts :
  forall e, In e (enemies (play acts (@initial T))) -> hit e = true ->
            In (enemy_id e) (timers (play acts (@initial T))).
Proof.
  induction acts as [|a acts IH] using rev_ind.
  - intros e I H. cbn in I.
    destruct I as [<-|[<-|[<-|[<-|[<-|[]]]]]]; discriminate H.
  - rewrite play_snoc. destruct a as [op|]; cbn [act].
    + destruct (handle_targets op (play acts initial)) as
        [(E & Ti & _)|[(targetId & e0 & _ & _ & _ & _ & E & Ti)|(targetId & _ & _ & E & Ti)]];
        rewrite E, Ti.
      * exact IH.
      * intros e' I H. apply In_setHit in I. rewrite in_app_iff.
        destruct I as (e & I & [[Id ->]|[Id ->]]); cbn in *.
        -- right. left. congruence.
        -- left. apply IH; assumption.
      * intros e' I H. apply In_setHit in I.
        destruct I as (e & I & [[Id ->]|[Id ->]]); cbn in *; [discriminate|].
        apply In_removeFirst_weak; [apply IH; assumption|exact Id].
    + rewrite render_enemies, render_timers. exact IH.
Qed.

(** X4. In any session, however the renders fall, a target whose [hit] is
    true has a timer pending that will reset it: no target stays in
    cool-down for ever.  In a session where every event is rendered before
    the next one is handled, moreover, a target's [hit] is true exactly when
    a timer is pending for it, and no target has more than one pending
    timer. *)
Theorem cooldown_always_has_its_timer :
  (forall acts e,
      In e (enemies (play acts (@initial T))) -> hit e = true ->
      In (enemy_id e) (timers (play acts (@initial T)))) /\
  (forall ops,
      let w := play (eachCommitted ops) (@initial T) in
      NoDup (timers w) /\
      forall e, In e (enemies w) -> (hit e = true <-> In (enemy_id e) (timers w))).
Proof.
  split; [apply hit_has_timer|].
  intro ops. cbv zeta. rewrite play_eachCommitted. apply timersMatchHits_run.
Qed.

Lemma setHit_ids_positions targetId b w :
  map enemy_id (enemies (setHit targetId b w)) = map enemy_id (enemies w) /\
  map enemy_position (enemies (setHit targetId b w)) = map enemy_position (enemies w).
Proof.
  unfold setHit; cbn. rewrite !map_map.
  split; apply map_ext; intro e; destruct (enemy_id e =? targetId); reflexivity.
Qed.

Lemma play_targets_fixed acts :
  map enemy_id (enemies (play acts (@initial T))) = [1; 2; 3; 4; 5] /\
  map enemy_position (enemies (play acts (@initial T))) =
    [(5, 1, -10); (-5, 1, -15); (0, 2, -20); (8, 1, -12); (-8, 1, -18)].
Proof.
  induction acts as [|a acts IH] using rev_ind.
  - split; reflexivity.
  - rewrite play_snoc. destruct a as [op|]; cbn [act];
      [|rewrite render_enemies; exact IH].
    destruct (handle_targets op (play acts initial)) as
      [(E & _)|[(targetId & e0 & _ & _ & _ & _ & E & _)|(targetId & _ & _ & E & _)]];
      rewrite E; try exact IH;
      destruct (setHit_ids_positions targetId true (play acts initial)) as [A B];
      destruct (setHit_ids_positions targetId false (play acts initial)) as [A' B'];
      rewrite ?A, ?B, ?A', ?B'; exact IH.
Qed.

Lemma run_targets_fixed ops :
  map enemy_id (enemies (run ops (@initial T))) = [1; 2; 3; 4; 5] /\
  map enemy_position (enemies (run ops (@initial T))) =
    [(5, 1, -10); (-5, 1, -15); (0, 2, -20); (8, 1, -12); (-8, 1, -18)].
Proof. rewrite <- play_eachCommitted. apply play_targets_fixed. Qed.


Lemma setHit_absent targetId b (es : list Enemy) :
  ~ In targetId (map enemy_id es) ->
  map (fun e => if enemy_id e =? targetId then withHit b e else e) es = es.
Proof.
  induction es as [|e es IH]; cbn; intro A; [reflexivity|].
  destruct (enemy_id e =? targetId) eqn:E.
  - apply Z.eqb_eq in E. tauto.
  - rewrite IH by tauto. reflexivity.
Qed.

Lemma hitCount_accepted targetId (es : list Enemy) e :
  NoDup (map enemy_id es) ->
  find (fun e => enemy_id e =? targetId) es = Some e -> hit e = false ->
  List.length (filter hit
    (map (fun e => if enemy_id e =? targetId then withHit true e else e) es)) =
  S (List.length (filter hit es)).
Proof.
  induction es as [|e0 es IH]; cbn; intros D F H; [discriminate|].
  inversion D as [|a l Na Dl]; subst.
  destruct (enemy_id e0 =? targetId) eqn:E.
  - injection F as ->. rewrite H. cbn.
    apply Z.eqb_eq in E. rewrite <- E, setHit_absent by exact Na. reflexivity.
  - destruct (hit e0); cbn; rewrite (IH Dl F H); reflexivity.
Qed.

Lemma hitCount_bound ops : (hitCount (run ops (@initial T)) <= 5)%nat.
Proof.
  unfold hitCount.
  transitivity (List.length (enemies (run ops (@initial T)))).
  - apply filter_length_le.
  - rewrite <- (length_map enemy_id). rewrite (proj1 (run_targets_fixed ops)).
    cbn. lia.
Qed.

Lemma score_is_hitCount ops :
  forallb (fun op => negb (isCooldownExpiry op)) ops = true ->
  score (gameState (run ops (@initial T))) = 10 * Z.of_nat (hitCount (run ops (@initial T))).
Proof.
  induction ops as [|op ops IH] using rev_ind; intro Q.
  - reflexivity.
  - rewrite forallb_app in Q. apply andb_true_iff in Q. destruct Q as [Q1 Q2].
    cbn in Q2. rewrite andb_true_r in Q2.
    rewrite run_snoc, step_score, (IH Q1). unfold hitCount.
    destruct (step_targets op (run ops initial)) as
      [(E & _ & A)|[(targetId & e0 & _ & F & H & A & E & _)|(targetId & -> & _)]];
      [| |discriminate Q2]; rewrite E, A.
    + lia.
    + unfold setHit; cbn [enemies set_enemies].
      rewrite (hitCount_accepted targetId (enemies (run ops initial)) (e := e0)).
      * lia.
      * rewrite (proj1 (run_targets_fixed ops)).
        repeat constructor; cbn; intuition lia.
      * destruct (run_committed ops) as [_ Ce].
        unfold findRenderedEnemy in F. rewrite Ce in F. exact F.
      * exact H.
Qed.

Lemma hitCount_setHit_true targetId (es : list Enemy) :
  NoDup (map enemy_id es) ->
  (List.length (filter hit
    (map (fun e => if (enemy_id e =? targetId)%Z then withHit true e else e) es)) <=
   S (List.length (filter hit es)))%nat.
Proof.
  induction es as [|e0 es IH]; cbn; intros D; [lia|].
  inversion D as [|a l Na Dl]; subst.
  destruct (enemy_id e0 =? targetId) eqn:E.
  - apply Z.eqb_eq in E. rewrite <- E, setHit_absent by exact Na.
    cbn. destruct (hit e0); cbn; lia.
  - specialize (IH Dl). destruct (hit e0); cbn; lia.
Qed.

Lemma hitCount_setHit_false targetId (es : list Enemy) :
  (List.length (filter hit
    (map (fun e => if (enemy_id e =? targetId)%Z then withHit false e else e) es)) <=
   List.length (filter hit es))%nat.
Proof.
  induction es as [|e0 es IH]; cbn; [lia|].
  destruct (enemy_id e0 =? targetId); cbn; destruct (hit e0); cbn; lia.
Qed.

(** In any session the score is at least ten times the number of targets
    showing HIT!. *)
Lemma score_covers_hitCount acts :
  10 * Z.of_nat (hitCount (play acts (@initial T))) <=
  score (gameState (play acts (@initial T))).
Proof.
  induction acts as [|a acts IH] using rev_ind.
  - cbn. lia.
  - rewrite play_snoc. destruct a as [op|]; cbn [act].
    + rewrite handle_score. unfold hitCount in *.
      destruct (handle_targets op (play acts initial)) as
        [(E & _ & A)|[(targetId & e0 & _ & _ & _ & A & E & _)|(targetId & _ & A & E & _)]];
        rewrite E, A.
      * lia.
      * unfold setHit; cbn [enemies set_enemies].
        pose proof (hitCount_setHit_true targetId (enemies (play acts initial))) as L.
        rewrite (proj1 (play_targets_fixed acts)) in L.
        assert (D : NoDup [1; 2; 3; 4; 5]) by (repeat constructor; cbn; intuition lia).
        specialize (L D). lia.
      * unfold setHit; cbn [enemies set_enemies].
        pose proof (hitCount_setHit_false targetId (enemies (play acts initial))). lia.
    + unfold hitCount in *. rewrite render_enemies, render_gameState. exact IH.
Qed.

Lemma filter_hit_full (es : list Enemy) :
  List.length (filter hit es) = List.length es <-> (forall e, In e es -> hit e = true).
Proof.
  induction es as [|e1 es IH]; cbn; [tauto|].
  pose proof (filter_length_le hit es) as Le.
  destruct (hit e1) eqn:H; cbn.
  - split.
    + intros F e [<-|I]; [exact H|]. apply IH; [lia|exact I].
    + intro A. f_equal. apply IH. intros e I. apply A. right; exact I.
  - split; [lia|]. intro A. specialize (A e1 (or_introl eq_refl)). congruence.
Qed.

(** X6. In any session, however the renders fall, the score is at least
    ten times the number of targets showing HIT!.  In a session where every
    event is rendered before the next one is handled and no cool-down has
    expired yet, the score is exactly ten times that number, hence at most
    50: there the completion threshold is reached without waiting for a
    timer only by hitting all five targets. *)
Theorem score_counts_hit_targets :
  (forall acts,
      10 * Z.of_nat (hitCount (play acts (@initial T))) <=
      score (gameState (play acts (@initial T)))) /\
  (forall ops,
      forallb (fun op => negb (isCooldownExpiry op)) ops = true ->
      let w := play (eachCommitted ops) (@initial T) in
      score (gameState w) = 10 * Z.of_nat (hitCount w) /\
      score (gameState w) <= 50 /\
      (score (gameState w) = 50 <-> forall e, In e (enemies w) -> hit e = true)).
Proof.
  split; [apply score_covers_hitCount|].
  intros ops Q. cbv zeta. rewrite play_eachCommitted.
  pose proof (score_is_hitCount ops Q) as S.
  pose proof (hitCount_bound ops) as B.
  split; [exact S|]. split; [lia|].
  assert (L : List.length (enemies (run ops (@initial T))) = 5%nat).
  { rewrite <- (length_map enemy_id), (proj1 (run_targets_fixed ops)). reflexivity. }
  unfold hitCount in *. rewrite S, <- filter_hit_full, L. lia.
Qed.

End Targets.

(* ================================================================== *)
(** ** The completion messages of a whole session *)
(* ================================================================== *)

Section Notifications.
Context {T : Type} {N : Number T}.
Implicit Types (w : World T) (op : Op T) (ops : list (Op T)).
Implicit Types (acts : list (Action T)) (a : Action T).

Lemma render_posted w d :
  effectDeps w = Some d ->
  posted (render w) =
  posted w ++ (if d =? score (gameState w) then [] else completionEffect (score (gameState w))).
Proof.
  intro D. unfold render, useEffect. cbn. rewrite D.
  destruct (d =? score (gameState w)); cbn; [rewrite app_nil_r|]; reflexivity.
Qed.

Lemma noticesOf_snoc (ss : list Z) (s : Z) :
  noticesOf (ss ++ [s]) =
  noticesOf ss ++ [(Window, completionMessage s); (Parent, completionMessage s)].
Proof. unfold noticesOf. rewrite flat_map_app. reflexivity. Qed.

Lemma noticesOf_count (r : Recipient) (ss : list Z) :
  List.length (filter (fun p => sameRecipient (fst p) r) (noticesOf ss)) = List.length ss.
Proof.
  induction ss as [|s ss IH]; [reflexivity|].
  change (noticesOf (s :: ss))
    with ([(Window, completionMessage s); (Parent, completionMessage s)] ++ noticesOf ss).
  rewrite filter_app, length_app, IH. destruct r; reflexivity.
Qed.

Lemma tens_div (k : Z) : 10 * k / 10 = k.
Proof. rewrite Z.mul_comm. apply Z.div_mul. lia. Qed.

(** The log of any session: the scores announced so far are increasing, lie
    between 50 and the score of the last render, and end with that score
    once it has reached 50. *)
Lemma play_log acts :
  exists ss : list Z,
    posted (play acts (@initial T)) = noticesOf ss /\
    StronglySorted Z.lt ss /\
    Forall (fun s => 50 <= s <= score (renderedState (play acts (@initial T)))) ss /\
    (50 <= score (renderedState (play acts (@initial T))) ->
     last ss 0 = score (renderedState (play acts (@initial T)))) /\
    (List.length ss <=
     Z.to_nat (score (renderedState (play acts (@initial T))) / 10 - 4))%nat /\
    (exists k, score (renderedState (play acts (@initial T))) = 10 * k) /\
    (exists k, score (gameState (play acts (@initial T))) = 10 * k).
Proof.
  induction acts as [|a acts IH] using rev_ind.
  - exists []. cbn. repeat split; try constructor; try lia; exists 0; reflexivity.
  - rewrite play_snoc. destruct IH as (ss & P & So & B & La & Le & [k R] & [k' L]).
    pose proof (ammo_above_score_below acts) as M. cbv zeta in M.
    destruct a as [op|]; cbn [act].
    + exists ss. destruct (handle_closures op (play acts initial)) as [C _].
      rewrite C, handle_posted, handle_score.
      repeat split; try assumption; [exists k; exact R|].
      destruct (accepted op _); [exists (k' + 1)|exists k']; lia.
    + destruct (render_committed (play acts initial)) as [C _].
      rewrite C, render_gameState, (render_posted _ (play_effectDeps acts)).
      destruct (Z.eqb_spec (score (renderedState (play acts initial)))
                           (score (gameState (play acts initial)))) as [E|D].
      * exists ss. rewrite app_nil_r, <- E.
        repeat split; try assumption; exists k; assumption.
      * unfold completionEffect.
        destruct (Z.leb_spec 50 (score (gameState (play acts initial)))) as [G|G].
        -- exists (ss ++ [score (gameState (play acts initial))]).
           rewrite noticesOf_snoc, P. split; [reflexivity|].
           split.
           { apply StronglySorted_snoc; [exact So|].
             apply (Forall_impl _ (P := fun s =>
                      50 <= s <= score (renderedState (play acts initial)))); [|exact B].
             cbv beta. lia. }
           split.
           { apply Forall_app. split; [|repeat constructor; lia].
             apply (Forall_impl _ (P := fun s =>
                      50 <= s <= score (renderedState (play acts initial)))); [|exact B].
             cbv beta. lia. }
           split; [intros _; apply last_last|].
           split; [|split; exists k'; exact L].
           rewrite length_app. cbn [List.length]. rewrite L, tens_div.
           rewrite R, tens_div in Le. lia.
        -- exists ss. rewrite app_nil_r.
           split; [exact P|]. split; [exact So|].
           split.
           { apply (Forall_impl _ (P := fun s =>
                      50 <= s <= score (renderedState (play acts initial)))); [|exact B].
             cbv beta. lia. }
           split; [lia|].
           split; [|split; exists k'; exact L].
           rewrite L, tens_div. rewrite R, tens_div in Le. lia.
Qed.

Lemma step_posted op w :
  effectDeps w = Some (score (gameState w)) ->
  posted (step op w) =
  posted w ++ (if accepted op w then completionEffect (score (gameState w) + 10) else []).
Proof.
  intro D0.
  assert (D : effectDeps (handle op w) = Some (score (gameState w)))
    by (rewrite handle_effectDeps; exact D0).
  assert (S := handle_score op w). assert (P := handle_posted op w).
  unfold step, render, useEffect. cbn. rewrite D, S.
  destruct (accepted op w).
  - replace (score (gameState w) =? score (gameState w) + 10) with false
      by (symmetry; apply Z.eqb_neq; lia).
    cbn. rewrite P. reflexivity.
  - rewrite Z.add_0_r, Z.eqb_refl. cbn. rewrite P, app_nil_r. reflexivity.
Qed.

Lemma acceptedHits_nonneg ops : forall w, 0 <= acceptedHits ops w.
Proof.
  induction ops as [|op ops IH]; intro w; cbn; [lia|].
  specialize (IH (step op w)). destruct (accepted op w); lia.
Qed.

Lemma run_score ops :
  score (gameState (run ops (@initial T))) = 10 * acceptedHits ops initial.
Proof.
  induction ops as [|op ops IH] using rev_ind.
  - reflexivity.
  - rewrite run_snoc, acceptedHits_snoc, step_score, IH.
    destruct (accepted op _); lia.
Qed.

Lemma emitted_S (n : nat) :
  emitted (S n) =
  emitted n ++ [(Window, completionMessage (10 * (Z.of_nat n + 5)));
                (Parent, completionMessage (10 * (Z.of_nat n + 5)))].
Proof.
  unfold emitted. rewrite seq_S, flat_map_app. reflexivity.
Qed.

Lemma run_posted ops :
  posted (run ops (@initial T)) = emitted (Z.to_nat (acceptedHits ops initial - 4)).
Proof.
  induction ops as [|op ops IH] using rev_ind.
  - reflexivity.
  - rewrite run_snoc, acceptedHits_snoc, step_posted by apply run_effectDeps.
    rewrite IH, run_score.
    pose proof (acceptedHits_nonneg ops (@initial T)) as A.
    destruct (accepted op _).
    + unfold completionEffect.
      destruct (50 <=? 10 * acceptedHits ops initial + 10) eqn:E.
      * apply Z.leb_le in E.
        replace (acceptedHits ops initial + 1 - 4)
          with (Z.succ (acceptedHits ops initial - 4)) by lia.
        rewrite Z2Nat.inj_succ by lia. rewrite emitted_S.
        rewrite Z2Nat.id by lia.
        replace (10 * (acceptedHits ops initial - 4 + 5))
          with (10 * acceptedHits ops initial + 10) by lia.
        reflexivity.
      * apply Z.leb_gt in E. rewrite app_nil_r.
        replace (Z.to_nat (acceptedHits ops initial + 1 - 4)) with 0%nat by lia.
        replace (Z.to_nat (acceptedHits ops initial - 4)) with 0%nat by lia.
        reflexivity.
    + rewrite app_nil_r, Z.add_0_r. reflexivity.
Qed.

Lemma emitted_count (r : Recipient) (n : nat) :
  List.length (filter (fun p => sameRecipient (fst p) r) (emitted n)) = n.
Proof.
  induction n as [|n IH]; [reflexivity|].
  rewrite emitted_S, filter_app, length_app, IH.
  destruct r; cbn; lia.
Qed.

(** X7. In any session, however the renders fall, the messages posted are
    the completion messages, each to [window] and then to [window.parent],
    for a strictly increasing list of scores that all lie between 50 and the
    score of the last render and that ends with that score once it is 50 or
    more; so nothing has been posted while the rendered score is below 50,
    and each receiver has been notified at most [score / 10 - 4] times.  In
    a session where every event is rendered before the next one is handled
    the scores are exactly 50, 60, ..., up to the current score: each
    receiver has been notified exactly [score / 10 - 4] times. *)
Theorem completion_log_of_a_session :
  (forall acts,
      let w := play acts (@initial T) in
      exists ss : list Z,
        posted w = noticesOf ss /\
        StronglySorted Z.lt ss /\
        Forall (fun s => 50 <= s <= score (renderedState w)) ss /\
        (50 <= score (renderedState w) -> last ss 0 = score (renderedState w)) /\
        notifications Window w = List.length ss /\
        notifications Parent w = List.length ss /\
        (List.length ss <= Z.to_nat (score (renderedState w) / 10 - 4))%nat) /\
  (forall ops,
      let w := play (eachCommitted ops) (@initial T) in
      let n := Z.to_nat (score (gameState w) / 10 - 4) in
      posted w = emitted n /\
      notifications Window w = n /\
      notifications Parent w = n /\
      (posted w = [] <-> score (gameState w) < 50)).
Proof.
  split.
  - intro acts. cbv zeta.
    destruct (play_log acts) as (ss & P & So & B & La & Le & _).
    exists ss. unfold notifications. rewrite P, !noticesOf_count.
    repeat split; assumption.
  - intro ops. cbv zeta. rewrite play_eachCommitted.
    pose proof (acceptedHits_nonneg ops (@initial T)) as A.
    assert (Q : score (gameState (run ops (@initial T))) / 10 = acceptedHits ops initial).
    { rewrite run_score, Z.mul_comm. apply Z.div_mul. lia. }
    rewrite Q. unfold notifications. rewrite run_posted, !emitted_count.
    repeat split; try reflexivity.
    + intro E. rewrite run_score.
      destruct (Z.to_nat (acceptedHits ops initial - 4)) as [|n] eqn:K; [lia|].
      rewrite emitted_S in E. destruct (emitted n); discriminate E.
    + rewrite run_score. intro L.
      replace (Z.to_nat (acceptedHits ops initial - 4)) with 0%nat by lia.
      reflexivity.
Qed.

End Notifications.

(* ================================================================== *)
(** ** Handlers that meet in one event *)
(* ================================================================== *)

Section Commuting.
Context {T : Type} {N : Number T}.
Implicit Types (w : World T) (camera : Camera T).

(** X8. A hit commutes with a shot, with a reload and with the removal of a
    bullet: when one click reaches both the target and the window listener,
    the state and the acceptance of the hit do not depend on which handler
    runs first. *)
Theorem registerHit_commutes targetId w :
  (forall camera,
      registerHit targetId (shoot camera w) =
      (shoot camera (fst (registerHit targetId w)), snd (registerHit targetId w))) /\
  registerHit targetId (reload w) =
    (reload (fst (registerHit targetId w)), snd (registerHit targetId w)) /\
  (forall bulletId,
      registerHit targetId (removeBullet bulletId w) =
      (removeBullet bulletId (fst (registerHit targetId w)),
       snd (registerHit targetId w))).
Proof.
  split; [|split].
  - intro camera. unfold registerHit, findRenderedEnemy, shoot.
    destruct (ammo (renderedState w) <=? 0) eqn:A.
    + destruct (find _ (renderedEnemies w)) as [e|]; cbn; [|rewrite A; reflexivity].
      unfold handleClick. destruct (hit e); cbn; rewrite A; reflexivity.
    + cbn. destruct (find _ (renderedEnemies w)) as [e|]; cbn; [|rewrite A; reflexivity].
      unfold handleClick. destruct (hit e); cbn; rewrite A; reflexivity.
  - unfold registerHit, findRenderedEnemy. cbn.
    destruct (find _ (renderedEnemies w)) as [e|]; [|reflexivity].
    unfold handleClick. destruct (hit e); reflexivity.
  - intro bulletId. unfold registerHit, findRenderedEnemy. cbn.
    destruct (find _ (renderedEnemies w)) as [e|]; [|reflexivity].
    unfold handleClick. destruct (hit e); reflexivity.
Qed.

End Commuting.

(* ================================================================== *)
(** ** Bullets and their meshes *)
(* ================================================================== *)

Section Meshes.
Context {T : Type} {N : Number T}.
Implicit Types (w : World T) (op : Op T) (ops : list (Op T)) (camera : Camera T).
Implicit Types (ms : list (Z * Vector3 T)) (bs : list (Bullet T)).

Lemma set_meshes_same w : set_meshes (meshes w) w = w.
Proof. destruct w; reflexivity. Qed.

Lemma updateMesh_keys i (m : Vector3 T) ms : map fst (updateMesh i m ms) = map fst ms.
Proof.
  unfold updateMesh. rewrite map_map. apply map_ext.
  intros [k m0]; cbn. destruct (k =? i); reflexivity.
Qed.

Lemma lookupMesh_updateMesh_same i (m : Vector3 T) ms :
  In i (map fst ms) -> lookupMesh i (updateMesh i m ms) = Some m.
Proof.
  unfold updateMesh. induction ms as [|[k m0] ms IH]; cbn; intro I; [contradiction|].
  destruct (k =? i) eqn:E; cbn; rewrite E; [reflexivity|].
  apply IH. apply Z.eqb_neq in E. tauto.
Qed.

Lemma lookupMesh_updateMesh_other i k (m : Vector3 T) ms :
  k <> i -> lookupMesh k (updateMesh i m ms) = lookupMesh k ms.
Proof.
  intro D. unfold updateMesh. induction ms as [|[k0 m0] ms IH]; cbn; [reflexivity|].
  destruct (k0 =? i) eqn:E; cbn; rewrite IH; [|reflexivity].
  apply Z.eqb_eq in E. subst k0.
  replace (i =? k) with false by (symmetry; apply Z.eqb_neq; congruence).
  reflexivity.
Qed.

Lemma lookupMesh_dropMesh_other i k ms :
  k <> i -> lookupMesh k (dropMesh i ms) = lookupMesh k ms.
Proof.
  intro D. unfold dropMesh. induction ms as [|[k0 m0] ms IH]; cbn; [reflexivity|].
  destruct (k0 =? i) eqn:E; cbn; rewrite IH; [|reflexivity].
  apply Z.eqb_eq in E. subst k0.
  replace (i =? k) with false by (symmetry; apply Z.eqb_neq; congruence).
  reflexivity.
Qed.

Lemma lookupMesh_dropMesh_same i ms : lookupMesh i (dropMesh i ms) = None.
Proof.
  unfold dropMesh. induction ms as [|[k0 m0] ms IH]; cbn; [reflexivity|].
  destruct (k0 =? i) eqn:E; cbn; rewrite ?E; exact IH.
Qed.


Lemma reconcile_skip k (m : Vector3 T) bs ms :
  ~ In k (map id bs) -> reconcile bs ((k, m) :: ms) = reconcile bs ms.
Proof.
  intro A. unfold reconcile. apply map_ext_in. intros b I. cbn.
  replace (k =? id b) with false; [reflexivity|].
  symmetry. apply Z.eqb_neq. intro E. apply A. rewrite E. apply in_map, I.
Qed.

(** Reconciling a sub-list of the bullets unmounts the meshes of the others
    and keeps the rest as they are. *)
Lemma reconcile_filter (p : Z -> bool) bs : forall ms,
  NoDup (map id bs) -> map fst ms = map id bs ->
  reconcile (filter (fun b => p (id b)) bs) ms = filter (fun km => p (fst km)) ms.
Proof.
  induction bs as [|b bs IH]; intros ms D K.
  - destruct ms; [reflexivity|discriminate].
  - destruct ms as [|[k m] ms]; [discriminate|].
    cbn in K. injection K as Kb K. subst k.
    inversion D as [|a l Na Dl]; subst.
    assert (A : ~ In (id b) (map id (filter (fun b => p (id b)) bs))).
    { intro I. apply Na. apply in_map_iff in I. destruct I as (b' & E & I).
      apply filter_In in I. apply in_map_iff. exists b'. tauto. }
    cbn [filter fst]. destruct (p (id b)) eqn:P.
    + change (reconcile (b :: filter (fun b => p (id b)) bs) ((id b, m) :: ms))
        with ((id b, match lookupMesh (id b) ((id b, m) :: ms) with
                     | Some m' => m'
                     | None => clone (position b)
                     end)
              :: reconcile (filter (fun b => p (id b)) bs) ((id b, m) :: ms)).
      cbn [lookupMesh]. rewrite Z.eqb_refl.
      rewrite reconcile_skip by exact A. rewrite (IH ms Dl K). reflexivity.
    + rewrite reconcile_skip by exact A. apply IH; assumption.
Qed.

Lemma filter_all {A : Type} (l : list A) : filter (fun _ => true) l = l.
Proof. induction l as [|a l IH]; cbn; congruence. Qed.

Lemma reconcile_synced bs ms :
  NoDup (map id bs) -> map fst ms = map id bs -> reconcile bs ms = ms.
Proof.
  intros D K.
  pose proof (reconcile_filter (fun _ => true) bs ms D K) as R.
  rewrite !filter_all in R. exact R.
Qed.

Lemma rendered_NoDup w : rendered w -> NoDup (bulletIds w).
Proof. intros ((_ & _ & S) & _). apply StronglySorted_NoDup, S. Qed.

(** A render without a state change does nothing. *)
Lemma set_rendered_same w : committed w -> set_rendered (gameState w) (enemies w) w = w.
Proof. intros [<- <-]. destruct w; reflexivity. Qed.

Lemma render_rendered w : rendered w -> render w = w.
Proof.
  intro R. pose proof (rendered_NoDup R) as D. destruct R as (_ & K & E & C).
  unfold render.
  rewrite (reconcile_synced (bullets (gameState w)) (meshes w) D K), set_meshes_same.
  rewrite (set_rendered_same C).
  unfold useEffect. rewrite E, Z.eqb_refl. reflexivity.
Qed.

Lemma rendered_step op w : idsOrdered w -> rendered (step op w).
Proof.
  intro O. split; [apply idsOrdered_step, O|].
  split; [|split; [apply step_effectDeps|apply step_committed]].
  unfold meshesSynced, bulletIds, step.
  rewrite render_meshes, render_gameState. apply reconcile_keys.
Qed.

Lemma rendered_run ops : rendered (run ops (@initial T)).
Proof.
  destruct ops as [|op ops] using rev_ind.
  - split; [apply (idsOrdered_run [])|]. repeat split; reflexivity.
  - rewrite run_snoc. apply rendered_step, idsOrdered_run.
Qed.

(** *** One frame of one bullet *)

Lemma render_explicit w ms :
  effectDeps w = Some (score (gameState w)) ->
  reconcile (bullets (gameState w)) (meshes w) = ms ->
  render w = set_rendered (gameState w) (enemies w) (set_meshes ms w).
Proof.
  intros E R. unfold render. rewrite R. unfold useEffect. cbn.
  rewrite E, Z.eqb_refl. reflexivity.
Qed.

Lemma findRenderedBullet_committed i w :
  committed w -> findRenderedBullet i w = findBullet i w.
Proof. intros [C _]. unfold findRenderedBullet, findBullet. rewrite C. reflexivity. Qed.

Lemma dropMesh_updateMesh_same i (m : Vector3 T) ms :
  dropMesh i (updateMesh i m ms) = dropMesh i ms.
Proof.
  unfold dropMesh, updateMesh.
  induction ms as [|[k m0] ms IH]; cbn; [reflexivity|].
  destruct (k =? i) eqn:E; cbn; rewrite E; cbn; rewrite IH; reflexivity.
Qed.

Lemma dropMesh_updateMesh_other i j (m : Vector3 T) ms :
  i <> j -> dropMesh i (updateMesh j m ms) = updateMesh j m (dropMesh i ms).
Proof.
  intro D. unfold dropMesh, updateMesh.
  induction ms as [|[k m0] ms IH]; cbn; [reflexivity|].
  destruct (k =? j) eqn:Ej; cbn; destruct (k =? i) eqn:Ei; cbn;
    rewrite ?Ej, IH; try reflexivity.
  all: apply Z.eqb_eq in Ej, Ei; congruence.
Qed.

Lemma updateMesh_comm i j (m m' : Vector3 T) ms :
  i <> j -> updateMesh i m (updateMesh j m' ms) = updateMesh j m' (updateMesh i m ms).
Proof.
  intro D. unfold updateMesh.
  induction ms as [|[k m0] ms IH]; cbn; [reflexivity|].
  destruct (k =? j) eqn:Ej; cbn; destruct (k =? i) eqn:Ei; cbn;
    rewrite ?Ej, ?Ei, IH; try reflexivity.
  all: apply Z.eqb_eq in Ej, Ei; congruence.
Qed.

Lemma filter_comm {A : Type} (p q : A -> bool) (l : list A) :
  filter p (filter q l) = filter q (filter p l).
Proof.
  induction l as [|a l IH]; cbn; [reflexivity|].
  destruct (p a) eqn:P; destruct (q a) eqn:Q; cbn; rewrite ?P, ?Q, IH; reflexivity.
Qed.

Lemma find_filter_keeps i j bs :
  i <> j ->
  find (fun b => id b =? j) (filter (keeps i) bs) = find (fun b => id b =? j) bs.
Proof.
  intro D. induction bs as [|b bs IH]; cbn; [reflexivity|].
  unfold keeps at 1. destruct (id b =? i) eqn:Ei; cbn.
  - apply Z.eqb_eq in Ei.
    replace (id b =? j) with false by (symmetry; apply Z.eqb_neq; congruence).
    exact IH.
  - destruct (id b =? j); [reflexivity|exact IH].
Qed.

Lemma findBullet_id i w b : findBullet i w = Some b -> id b = i.
Proof.
  unfold findBullet. intro F. apply find_some in F. apply Z.eqb_eq. tauto.
Qed.


(** In a rendered world, the frame of a bullet and the render after it. *)
Lemma step_tick i delta w : rendered w -> step (Tick i delta) w = tickOutcome i delta w.
Proof.
  intro R. pose proof (rendered_NoDup R) as D.
  pose proof (render_rendered R) as RR. destruct R as (_ & K & E & C).
  unfold step, handle, tick, tickOutcome.
  rewrite (findRenderedBullet_committed i C).
  destruct (findBullet i w) as [b|] eqn:F; [|exact RR].
  destruct (lookupMesh i (meshes w)) as [m|] eqn:L; [|exact RR].
  rewrite (findBullet_id _ _ F).
  destruct (bulletFrame (position b) (direction b) m delta) as [m' e]. cbn [fst snd].
  unfold meshesSynced, bulletIds in K. unfold bulletIds in D.
  destruct e.
  - rewrite (@render_explicit _ (dropMesh i (meshes w))); [reflexivity|exact E|].
    cbn. rewrite <- (dropMesh_updateMesh_same i m' (meshes w)).
    apply (reconcile_filter (fun k => negb (k =? i))); [exact D|].
    etransitivity; [apply (updateMesh_keys i m' (meshes w))|exact K].
  - rewrite (@render_explicit _ (updateMesh i m' (meshes w))); [|exact E|].
    + cbn. destruct C as [C1 C2]. destruct w; cbn in *. subst. reflexivity.
    + cbn. apply reconcile_synced; [exact D|].
      etransitivity; [apply (updateMesh_keys i m' (meshes w))|exact K].
Qed.

Lemma tickOutcome_some i delta w b m :
  findBullet i w = Some b -> lookupMesh i (meshes w) = Some m ->
  tickOutcome i delta w =
  if snd (bulletFrame (position b) (direction b) m delta)
  then set_rendered (gameState (removeBullet i w)) (enemies w)
         (set_meshes (dropMesh i (meshes w)) (removeBullet i w))
  else set_meshes
         (updateMesh i (fst (bulletFrame (position b) (direction b) m delta)) (meshes w)) w.
Proof. intros F L. unfold tickOutcome. rewrite F, L. reflexivity. Qed.

Lemma tickOutcome_none i delta w :
  findBullet i w = None \/ lookupMesh i (meshes w) = None -> tickOutcome i delta w = w.
Proof.
  intros [F|L]; unfold tickOutcome.
  - rewrite F. reflexivity.
  - rewrite L. destruct (findBullet i w); reflexivity.
Qed.

Lemma tickOutcome_findBullet i j delta w :
  i <> j -> findBullet j (tickOutcome i delta w) = findBullet j w.
Proof.
  intro D. unfold tickOutcome.
  destruct (findBullet i w) as [b|]; [|reflexivity].
  destruct (lookupMesh i (meshes w)) as [m|]; [|reflexivity].
  destruct (snd _); [|reflexivity].
  unfold findBullet. cbn. apply find_filter_keeps, D.
Qed.

Lemma tickOutcome_lookupMesh i j delta w :
  i <> j -> lookupMesh j (meshes (tickOutcome i delta w)) = lookupMesh j (meshes w).
Proof.
  intro D. unfold tickOutcome.
  destruct (findBullet i w) as [b|]; [|reflexivity].
  destruct (lookupMesh i (meshes w)) as [m|]; [|reflexivity].
  destruct (snd _); cbn.
  - apply lookupMesh_dropMesh_other. congruence.
  - apply lookupMesh_updateMesh_other. congruence.
Qed.

Lemma tickOutcome_comm i j delta delta' w :
  i <> j ->
  tickOutcome j delta' (tickOutcome i delta w) =
  tickOutcome i delta (tickOutcome j delta' w).
Proof.
  intro D. assert (D' : j <> i) by congruence.
  destruct (findBullet i w) as [bi|] eqn:Fi;
    [destruct (lookupMesh i (meshes w)) as [mi|] eqn:Li|].
  2, 3: rewrite (@tickOutcome_none i delta w) by auto;
        rewrite (@tickOutcome_none i delta (tickOutcome j delta' w)); [reflexivity|];
        rewrite tickOutcome_findBullet, tickOutcome_lookupMesh by exact D'; auto.
  destruct (findBullet j w) as [bj|] eqn:Fj;
    [destruct (lookupMesh j (meshes w)) as [mj|] eqn:Lj|].
  2, 3: rewrite (@tickOutcome_none j delta' w) by auto;
        rewrite (@tickOutcome_none j delta' (tickOutcome i delta w)); [reflexivity|];
        rewrite tickOutcome_findBullet, tickOutcome_lookupMesh by exact D; auto.
  rewrite (@tickOutcome_some j delta' (tickOutcome i delta w) bj mj)
    by (rewrite ?tickOutcome_findBullet, ?tickOutcome_lookupMesh by exact D; assumption).
  rewrite (@tickOutcome_some i delta (tickOutcome j delta' w) bi mi)
    by (rewrite ?tickOutcome_findBullet, ?tickOutcome_lookupMesh by exact D'; assumption).
  rewrite (@tickOutcome_some i delta w bi mi Fi Li).
  rewrite (@tickOutcome_some j delta' w bj mj Fj Lj).
  destruct (bulletFrame (position bi) (direction bi) mi delta) as [mi' ei].
  destruct (bulletFrame (position bj) (direction bj) mj delta') as [mj' ej].
  cbn [fst snd].
  destruct ei, ej; unfold set_rendered, set_meshes, removeBullet, setGameState; cbn;
    f_equal;
    first [ f_equal; apply filter_comm
          | apply filter_comm
          | symmetry; apply dropMesh_updateMesh_other, D
          | apply dropMesh_updateMesh_other, D'
          | symmetry; apply updateMesh_comm, D ].
Qed.

(** X10. The frames of two different bullets commute: within one rendered
    frame the bullets can be ticked in either order and the session ends in
    the same state, whether or not either of them expires. *)
Theorem frames_of_two_bullets_commute ops i j delta delta' :
  i <> j ->
  step (Tick j delta') (step (Tick i delta) (run ops (@initial T))) =
  step (Tick i delta) (step (Tick j delta') (run ops (@initial T))).
Proof.
  intro D.
  pose proof (rendered_run ops) as R.
  pose proof (idsOrdered_run ops) as O.
  rewrite (step_tick j delta' (rendered_step (Tick i delta) O)).
  rewrite (step_tick i delta (rendered_step (Tick j delta') O)).
  rewrite !(step_tick _ _ R).
  apply tickOutcome_comm, D.
Qed.

(** X11. One frame of a bullet of a session, and the render after it: when
    the frame finds the bullet beyond range, the bullet leaves the state and
    its mesh is unmounted; otherwise the state is unchanged and the mesh has
    moved.  Either way the meshes of the other bullets stay where they
    were. *)
Theorem frame_moves_or_removes_the_bullet ops i delta b m :
  let w := run ops (@initial T) in
  findBullet i w = Some b ->
  lookupMesh i (meshes w) = Some m ->
  let m' := fst (bulletFrame (position b) (direction b) m delta) in
  let expired := snd (bulletFrame (position b) (direction b) m delta) in
  snd (tick i delta w) = expired /\
  (expired = false ->
     gameState (step (Tick i delta) w) = gameState w /\
     lookupMesh i (meshes (step (Tick i delta) w)) = Some m') /\
  (expired = true ->
     bullets (gameState (step (Tick i delta) w)) = filter (keeps i) (bullets (gameState w)) /\
     ~ In i (bulletIds (step (Tick i delta) w)) /\
     lookupMesh i (meshes (step (Tick i delta) w)) = None) /\
  (forall k, k <> i ->
     lookupMesh k (meshes (step (Tick i delta) w)) = lookupMesh k (meshes w)).
Proof.
  cbv zeta. intros F L.
  rewrite (step_tick i delta (rendered_run ops)).
  split; [|split; [|split]].
  - unfold tick. rewrite (findRenderedBullet_committed i (run_committed ops)), F, L.
    destruct (bulletFrame (position b) (direction b) m delta). reflexivity.
  - intro E. rewrite (@tickOutcome_some i delta _ b m F L), E. cbn.
    split; [reflexivity|].
    apply lookupMesh_updateMesh_same.
    destruct (in_dec Z.eq_dec i (map fst (meshes (run ops (@initial T))))) as [I|A];
      [exact I|].
    rewrite lookupMesh_absent in L by exact A. discriminate.
  - intro E. rewrite (@tickOutcome_some i delta _ b m F L), E. cbn.
    split; [reflexivity|]. split; [|apply lookupMesh_dropMesh_same].
    unfold bulletIds. cbn. intro I. apply in_map_iff in I.
    destruct I as (b' & Eb & I). apply filter_In in I.
    destruct I as [_ Kp]. apply keeps_true in Kp. contradiction.
  - intros k D. apply (@tickOutcome_lookupMesh i k delta). congruence.
Qed.

End Meshes.

(* ================================================================== *)
(** ** Where the mesh of a bullet is *)
(* ================================================================== *)

Section MeshOfBullet.
Context {T : Type} {N : Number T}.
Implicit Types (w : World T) (op : Op T) (ops : list (Op T)) (camera : Camera T).
Implicit Types (ms : list (Z * Vector3 T)) (bs : list (Bullet T)).




(** A bullet of the state after an event was there before, or is the one
    the event fired. *)
Lemma step_bullet_origin op w (b : Bullet T) :
  In b (bullets (gameState (step op w))) ->
  In b (bullets (gameState w)) \/
  exists camera, op = Shoot camera /\ 0 < ammo (renderedState w) /\
                 b = firedBullet camera (bulletIdCounter w).
Proof.
  unfold step. rewrite render_gameState.
  destruct op as [camera| |projectileId delta|projectileId|targetId|targetId]; cbn.
  - destruct (Z.le_gt_cases (ammo (renderedState w)) 0) as [A|A].
    + rewrite (shoot_empty camera w A). auto.
    + rewrite (shoot_fires camera w A). cbn. intro I. apply in_app_or in I.
      destruct I as [I|[<-|[]]]; [auto|].
      right. exists camera. repeat split. lia.
  - auto.
  - destruct (tick_gameState projectileId delta w) as [E|E]; rewrite E; [auto|].
    cbn. intro I. apply filter_In in I. tauto.
  - intro I. apply filter_In in I. tauto.
  - destruct (registerHit_cases targetId w) as [H|H]; rewrite H; auto.
  - auto.
Qed.







End MeshOfBullet.

(* ================================================================== *)
(** ** Bullets of a session, in exact arithmetic *)
(* ================================================================== *)

Section ExactSessions.
Implicit Types (w : World R) (op : Op R) (ops : list (Op R)) (b : Bullet R).
Local Open Scope R_scope.











(** *** Directions *)

Lemma forward_lengthSq (q : Quaternion R) :
  unitQuaternion q ->
  lengthSq (applyQuaternion {| x := 0; y := 0; z := -1 |} q) = 1.
Proof.
  unfold unitQuaternion. intro U.
  transitivity (1 + 4 * (qx q * qx q + qy q * qy q)
                      * (qx q * qx q + qy q * qy q + qz q * qz q + qw q * qw q - 1)).
  - unfold lengthSq, applyQuaternion; cbn. ring.
  - rewrite U. ring.
Qed.

Lemma multiplyScalar_one (v : Vector3 R) : multiplyScalar v (1 / 1) = v.
Proof. destruct v. unfold multiplyScalar; cbn. f_equal; field. Qed.

Lemma fired_direction (camera : Camera R) (c : Z) :
  unitQuaternion (camera_quaternion camera) ->
  direction (firedBullet camera c) =
    applyQuaternion {| x := 0; y := 0; z := -1 |} (camera_quaternion camera) /\
  length (direction (firedBullet camera c)) = 1.
Proof.
  intro U. pose proof (forward_lengthSq U) as Q.
  assert (L : length (applyQuaternion {| x := 0; y := 0; z := -1 |}
                                      (camera_quaternion camera)) = 1).
  { unfold length. cbn [nsqrt R_Number]. rewrite Q. apply sqrt_1. }
  assert (E : direction (firedBullet camera c) =
              applyQuaternion {| x := 0; y := 0; z := -1 |} (camera_quaternion camera)).
  { cbn [direction firedBullet]. change (num 0) with 0. change (num (-1)) with (-1).
    unfold normalize. rewrite L.
    change (falsy 1) with (R_falsy 1). unfold R_falsy.
    destruct (Req_dec_T 1 0) as [Abs|_]; [lra|].
    unfold divideScalar. change (ndiv (num 1) 1) with (1 / 1).
    apply multiplyScalar_one. }
  split; [exact E|]. rewrite E. exact L.
Qed.

Lemma unit_directions_run ops :
  Forall unitCamera ops ->
  forall b, In b (bullets (gameState (run ops (@initial R)))) -> length (direction b) = 1.
Proof.
  induction ops as [|op ops IH] using rev_ind; intros U b I; [destruct I|].
  apply Forall_app in U. destruct U as [U Uop].
  rewrite run_snoc in I.
  destruct (step_bullet_origin op (run ops initial) b I) as [Old|(camera & -> & _ & ->)].
  - apply IH; assumption.
  - inversion Uop as [|o l Uc _]; subst. apply fired_direction, Uc.
Qed.

(** X15. In exact arithmetic, when every shot is fired with a camera whose
    rotation is a unit quaternion, every bullet of the state has a direction
    of length 1: [shoot] stores the rotated forward vector, and the
    normalization is exact. *)
Theorem bullets_have_unit_direction ops :
  Forall unitCamera ops ->
  forall b, In b (bullets (gameState (run ops (@initial R)))) -> length (direction b) = 1.
Proof. apply unit_directions_run. Qed.


(** *** What a shot creates *)




End ExactSessions.

(* ================================================================== *)
(** ** From input events to operations *)
(* ================================================================== *)

Section InputEvents.
Context {T : Type} {N : Number T}.
Implicit Types (w : World T) (ev : Event T) (evs : list (Event T)) (blk : Block T).

Lemma world_dispatchAll evs : forall blk,
  world (dispatchAll evs blk) =
  play (actionsOf (gameStarted blk) (mounted blk) evs) (world blk).
Proof.
  induction evs as [|ev evs IH]; intro blk; [reflexivity|].
  cbn [dispatchAll]. rewrite IH.
  destruct ev as [|pointerLocked camera|code|enemyId|enemyId|bulletId delta|];
    cbn [dispatch actionsOf opOf]; try reflexivity;
    destruct (mounted blk) eqn:M; cbn [gameStarted mounted world listen]; rewrite ?M;
    try reflexivity.
  - unfold windowClick. destruct pointerLocked; reflexivity.
  - unfold handleKeyPress. destruct (String.eqb code "KeyR"); reflexivity.
Qed.

Lemma gameStarted_dispatchAll evs : forall blk,
  gameStarted (dispatchAll evs blk) = gameStarted blk || existsb isStartButton evs.
Proof.
  induction evs as [|ev evs IH]; intro blk; cbn [dispatchAll existsb].
  - rewrite orb_false_r. reflexivity.
  - rewrite IH.
    destruct ev; cbn [dispatch isStartButton orb]; try reflexivity;
      try (destruct (mounted blk); reflexivity).
    rewrite orb_true_r. reflexivity.
Qed.

Lemma dispatch_rendered_started ev ops :
  isStartButton ev = false ->
  dispatch Rerender
    (dispatch ev {| gameStarted := true; mounted := true; world := run ops (@initial T) |}) =
  {| gameStarted := true; mounted := true;
     world := run (ops ++ match opOf ev with Some op => [op] | None => [] end) initial |}.
Proof.
  intro NS. pose proof (render_rendered (rendered_run ops)) as RR.
  destruct ev as [|pointerLocked camera|code|enemyId|enemyId|bulletId delta|];
    try discriminate NS; cbn [dispatch gameStarted mounted world listen opOf].
  - unfold windowClick. destruct pointerLocked.
    + rewrite run_snoc. reflexivity.
    + rewrite app_nil_r, RR. reflexivity.
  - unfold handleKeyPress. destruct (String.eqb code "KeyR").
    + rewrite run_snoc. reflexivity.
    + rewrite app_nil_r, RR. reflexivity.
  - rewrite run_snoc. reflexivity.
  - rewrite run_snoc. reflexivity.
  - rewrite run_snoc. reflexivity.
  - rewrite app_nil_r, RR, RR. reflexivity.
Qed.

Lemma dispatch_rendered_waiting ev ops :
  isStartButton ev = false ->
  dispatch Rerender
    (dispatch ev {| gameStarted := false; mounted := false; world := run ops (@initial T) |}) =
  {| gameStarted := false; mounted := false; world := run ops (@initial T) |}.
Proof.
  intro NS. pose proof (render_rendered (rendered_run ops)) as RR.
  destruct ev; try discriminate NS; cbn [dispatch gameStarted mounted world];
    rewrite ?RR; reflexivity.
Qed.

Lemma dispatchAll_run evs : forall started ops,
  dispatchAll (eachRendered evs)
    {| gameStarted := started; mounted := started; world := run ops (@initial T) |} =
  {| gameStarted := started || existsb isStartButton evs;
     mounted := started || existsb isStartButton evs;
     world := run (ops ++ opsOf started evs) initial |}.
Proof.
  induction evs as [|ev evs IH]; intros started ops.
  - cbn. rewrite orb_false_r, app_nil_r. reflexivity.
  - cbn [eachRendered flat_map app dispatchAll opsOf existsb].
    fold (eachRendered evs).
    destruct (isStartButton ev) eqn:S.
    + destruct ev; try discriminate S. cbn [dispatch gameStarted mounted world].
      rewrite (render_rendered (rendered_run ops)).
      rewrite IH, orb_true_r. reflexivity.
    + destruct started.
      * rewrite (dispatch_rendered_started ev ops S), IH.
        destruct (opOf ev) as [op|]; cbn [orb].
        -- rewrite <- app_assoc. reflexivity.
        -- rewrite app_nil_r. reflexivity.
      * rewrite (dispatch_rendered_waiting ev ops S), IH. reflexivity.
Qed.

Lemma dispatchAll_waiting evs :
  existsb isStartButton evs = false -> dispatchAll evs (@startScreen T) = startScreen.
Proof.
  induction evs as [|ev evs IH]; intro NS; [reflexivity|].
  cbn [existsb] in NS. apply orb_false_iff in NS. destruct NS as [S NS].
  cbn [dispatchAll].
  replace (dispatch ev (@startScreen T)) with (@startScreen T); [exact (IH NS)|].
  destruct ev; try discriminate S; reflexivity.
Qed.

(** X17. Whatever events reach the component, and wherever the re-renders
    fall between them, the game is in the state the corresponding handler
    calls and renders lead to from the initial state: events that arrive
    while the start screen is shown, clicks without pointer lock and keys
    other than R contribute nothing.  When every event is followed by a
    re-render, that state is the one of the run of the corresponding
    operations.  Nothing changes before the start button is pressed, and
    [gameStarted], once true, stays true. *)
Theorem events_amount_to_actions evs :
  world (dispatchAll evs (@startScreen T)) = play (actionsOf false false evs) initial /\
  world (dispatchAll (eachRendered evs) (@startScreen T)) = run (opsOf false evs) initial /\
  gameStarted (dispatchAll evs (@startScreen T)) = existsb isStartButton evs /\
  (existsb isStartButton evs = false -> dispatchAll evs (@startScreen T) = startScreen) /\
  (forall blk, gameStarted blk = true -> gameStarted (dispatchAll evs blk) = true).
Proof.
  split; [apply (world_dispatchAll evs startScreen)|].
  split.
  { pose proof (dispatchAll_run evs false []) as D.
    change {| gameStarted := false; mounted := false; world := run [] (@initial T) |}
      with (@startScreen T) in D.
    rewrite D. reflexivity. }
  split; [apply (gameStarted_dispatchAll evs startScreen)|].
  split; [apply dispatchAll_waiting|].
  intros blk G. rewrite gameStarted_dispatchAll, G. reflexivity.
Qed.

End InputEvents.

(* ================================================================== *)
(** ** The animation of a target, in exact arithmetic *)
(* ================================================================== *)

Section Bobbing.
Local Open Scope R_scope.

Lemma enemyFrames_hit (e : Enemy) (times : list R) (mesh : EnemyMesh R) :
  hit e = true -> enemyFrames Rtrigo_def.sin e times mesh = mesh.
Proof.
  intro H. revert mesh. induction times as [|t times IH]; intro mesh; [reflexivity|].
  cbn [enemyFrames]. unfold enemyFrame. rewrite H. cbn. apply IH.
Qed.

Lemma enemyFrames_idle (e : Enemy) (times : list R) : forall mesh : EnemyMesh R,
  hit e = false ->
  rotation_y (enemyFrames Rtrigo_def.sin e times mesh) =
    rotation_y mesh + INR (List.length times) * (1 / 100) /\
  (times <> [] ->
   Rabs (position_y (enemyFrames Rtrigo_def.sin e times mesh)
         - IZR (snd (fst (enemy_position e)))) <= 2 / 10).
Proof.
  induction times as [|t times IH]; intros mesh H.
  - cbn. split; [ring|]. intro A. contradiction.
  - cbn [enemyFrames].
    destruct (IH (enemyFrame Rtrigo_def.sin e t mesh) H) as [Rot Pos].
    split.
    + rewrite Rot. unfold enemyFrame. rewrite H. cbn [negb rotation_y].
      change (List.length (t :: times)) with (S (List.length times)).
      rewrite S_INR. cbn. ring.
    + intros _. destruct times as [|t' times'].
      * cbn [enemyFrames]. unfold enemyFrame. rewrite H. cbn [negb position_y].
        cbn [nadd nmul ndiv num R_Number].
        pose proof (SIN_bound (t * 2)) as [Lo Hi].
        apply Rabs_le. lra.
      * apply Pos. discriminate.
Qed.

(** X18. In exact arithmetic: while a target shows HIT! its animation is
    frozen, every frame leaves the mesh as it is; while it is idle each
    frame turns it by 0.01 and puts it at a height within 0.2 of the height
    of its [position] prop. *)
Theorem target_bobs_within_a_fifth (e : Enemy) (times : list R) (mesh : EnemyMesh R) :
  (hit e = true -> enemyFrames Rtrigo_def.sin e times mesh = mesh) /\
  (hit e = false ->
   rotation_y (enemyFrames Rtrigo_def.sin e times mesh) =
     rotation_y mesh + INR (List.length times) * (1 / 100) /\
   (times <> [] ->
    Rabs (position_y (enemyFrames Rtrigo_def.sin e times mesh)
          - IZR (snd (fst (enemy_position e)))) <= 2 / 10)).
Proof.
  split; [apply enemyFrames_hit|apply enemyFrames_idle].
Qed.

End Bobbing.

(* ================================================================== *)
(** ** More concrete runs *)
(* ================================================================== *)

Section MoreScenarios.

(** The literals of the animation, in binary64: the quotients the model
    writes are the doubles the source writes. *)
Example animation_literals :
  ndiv (num 1) (num 100) = 0.01%float /\ ndiv (num 2) (num 10) = 0.2%float.
Proof. split; vm_compute; reflexivity. Qed.

(** Thirty-one shots from the initial state: rendered one by one they
    empty the magazine and the last one does nothing; handled before any
    render they all fire and leave the ammo at -1. *)
Lemma shots_spend_the_magazine_witness :
  ammo (gameState (play (eachCommitted (map (@Shoot float) (repeat cameraF 31))) initial)) = 0 /\
  ammo (gameState (play (map (fun camera => Handle (Shoot camera)) (repeat cameraF 31))
                        initial)) = -1.
Proof.
  pose proof (shots_spend_the_magazine (repeat cameraF 31) (@initial float) eq_refl
                (proj1 (Z.leb_le 0 30) eq_refl)) as H.
  cbv zeta in H. destruct H as ((A & _) & _ & B).
  split; [exact A|exact (proj1 (B eq_refl))].
Defined.

(** One hit on each of the five targets, each rendered: 50 points and five
    targets showing HIT!. *)
Lemma score_counts_hit_targets_witness :
  score (gameState (play (eachCommitted (firstn 5 sixHits)) initial)) =
  10 * Z.of_nat (hitCount (play (eachCommitted (firstn 5 sixHits)) (@initial float))).
Proof.
  exact (proj1 (proj2 (@score_counts_hit_targets float _) (firstn 5 sixHits) eq_refl)).
Defined.

(** Two bullets in flight, ticked in either order. *)
Lemma frames_of_two_bullets_commute_witness :
  step (Tick 1 0.1%float)
       (step (Tick 0 0.1%float) (run [Shoot cameraF; Shoot cameraF] initial)) =
  step (Tick 0 0.1%float)
       (step (Tick 1 0.1%float) (run [Shoot cameraF; Shoot cameraF] initial)).
Proof.
  apply frames_of_two_bullets_commute. discriminate.
Defined.

(** The first frame of the first bullet, a tenth of a second long: the
    bullet stays and its mesh is five units ahead. *)
Lemma frame_moves_or_removes_the_bullet_witness :
  snd (tick 0 0.1%float (run [Shoot cameraF] initial)) = false /\
  lookupMesh 0 (meshes (step (Tick 0 0.1%float) (run [Shoot cameraF] initial))) =
    Some {| x := 0; y := 1; z := -5 |}%float.
Proof.
  pose proof (@frame_moves_or_removes_the_bullet float _ [Shoot cameraF] 0 0.1%float
                {| id := 0; position := eyeF; direction := forwardF |} eyeF
                eq_refl eq_refl) as H.
  cbv zeta in H. destruct H as (A & B & _).
  split; [exact A|exact (proj2 (B eq_refl))].
Defined.


Lemma cameraR_unit : Forall unitCamera [Shoot cameraR; Tick 0 1%R].
Proof.
  constructor; [|constructor; [exact I|constructor]].
  unfold unitCamera, unitQuaternion, cameraR; cbn. lra.
Qed.

Lemma fired_direction_unit : length (direction (firedBullet cameraR 0)) = 1%R.
Proof.
  apply (@unit_directions_run [Shoot cameraR]).
  - constructor; [|constructor]. unfold unitCamera, unitQuaternion, cameraR; cbn. lra.
  - left. reflexivity.
Qed.

(** A shot and one frame of one second: the bullet is 50 units away, within
    range, and stays in the state. *)
Lemma fired_in_state :
  In (firedBullet cameraR 0)
     (bullets (gameState (run [Shoot cameraR; Tick 0 1%R] initial))).
Proof.
  change (run [Shoot cameraR; Tick 0 1%R] initial)
    with (step (Tick 0 1%R) (run [Shoot cameraR] initial)).
  unfold step. rewrite render_gameState. cbn [handle]. unfold tick.
  change (findRenderedBullet 0 (run [Shoot cameraR] initial))
    with (Some (firedBullet cameraR 0)).
  change (lookupMesh 0 (meshes (run [Shoot cameraR] initial)))
    with (Some (position (firedBullet cameraR 0))).
  pose proof (@bulletFrame_exact (position (firedBullet cameraR 0))
                (direction (firedBullet cameraR 0)) 0%R 1%R
                fired_direction_unit ltac:(lra)) as E.
  rewrite add_multiplyScalar_zero in E. cbv iota beta. rewrite E.
  destruct (R_gtb (50 * (0 + 1)) 100) eqn:G.
  - apply R_gtb_true in G. lra.
  - left. reflexivity.
Qed.




Lemma bullets_have_unit_direction_witness :
  length (direction (firedBullet cameraR 0)) = 1%R.
Proof.
  exact (bullets_have_unit_direction cameraR_unit (firedBullet cameraR 0) fired_in_state).
Defined.


(** Target 1 right after its first hit: in cool-down, with its timer
    pending, before and after the render. *)
Lemma cooldown_always_has_its_timer_witness :
  In 1 (timers (play [Handle (RegisterHit 1)] (@initial float))) /\
  (hit {| enemy_id := 1; enemy_position := (5, 1, -10); hit := true |} = true <->
   In 1 (timers (play (eachCommitted [RegisterHit 1]) (@initial float)))).
Proof.
  split.
  - exact (proj1 (@cooldown_always_has_its_timer float _) [Handle (RegisterHit 1)]
             {| enemy_id := 1; enemy_position := (5, 1, -10); hit := true |}
             (or_introl eq_refl) eq_refl).
  - exact (proj2 (proj2 (@cooldown_always_has_its_timer float _) [RegisterHit 1])
             {| enemy_id := 1; enemy_position := (5, 1, -10); hit := true |}
             (or_introl eq_refl)).
Defined.

(** Two hits handled before one render, from 40 points: one pair of
    messages, for the score 60. *)
Lemma completion_log_of_a_session_witness :
  exists ss : list Z,
    posted (play twoHitsInOneRender (@initial float)) = noticesOf ss /\
    notifications Window (play twoHitsInOneRender (@initial float)) = List.length ss.
Proof.
  destruct (proj1 (@completion_log_of_a_session float _) twoHitsInOneRender)
    as (ss & P & _ & _ & _ & W & _).
  exists ss. split; [exact P|exact W].
Defined.




(** The R key, a click and a re-render before the start button: nothing
    happens. *)
Lemma events_amount_to_actions_witness :
  dispatchAll [KeyDown "KeyR"; WindowClick true cameraF; Rerender] startScreen =
  startScreen.
Proof.
  exact (proj1 (proj2 (proj2 (proj2
           (events_amount_to_actions [KeyDown "KeyR"; WindowClick true cameraF; Rerender]))))
           eq_refl).
Defined.

(** One frame of the idle target 1, at time 0. *)
Lemma target_bobs_within_a_fifth_witness :
  (Rabs (position_y
           (enemyFrames Rtrigo_def.sin
              {| enemy_id := 1%Z; enemy_position := (5, 1, -10)%Z; hit := false |}
              [0%R] {| rotation_y := 0%R; position_y := 1%R |}) - 1) <= 2 / 10)%R.
Proof.
  refine (proj2 (proj2 (target_bobs_within_a_fifth
            {| enemy_id := 1%Z; enemy_position := (5, 1, -10)%Z; hit := false |}
            [0%R] {| rotation_y := 0%R; position_y := 1%R |}) eq_refl) _).
  discriminate.
Defined.

End MoreScenarios.
